(** * SattvaTech chatbot backend: the request handler of [app.py]

    A shallow embedding of [src/app.py] (the Flask handler [chat] and the
    helpers it calls) together with the properties of its context assembly
    and lead-capture logic.

    Conventions of the embedding:
    - Python [str] values are [string]s; characters range over the first
      256 code points, and [lower]/[strip] follow Python on that range.
    - Python dicts and MongoDB documents are [gmap string value].
    - Effects (the two collections, the SMTP transport, the model service,
      [print], [datetime.utcnow]) are threaded through a state-and-exception
      monad [M] over a [World]; the behaviour of the external services is
      given by an [Env] of oracles. *)

From Stdlib Require Import Ascii String ZArith Lia Sorted.
From stdpp Require Import base option list gmap strings fin_maps.

Local Open Scope Z_scope.

(** ** Python string primitives *)

Module PyStr.

Definition nl : string := String (ascii_of_nat 10) EmptyString.

(** [c.lower()] on code points 0..255: A-Z, and the Latin-1 capitals
    U+00C0..U+00DE except the multiplication sign U+00D7. *)
Definition lower_char (c : ascii) : ascii :=
  let n := nat_of_ascii c in
  if ((65 <=? n)%nat && (n <=? 90)%nat)
     || ((192 <=? n)%nat && (n <=? 222)%nat && negb (n =? 215)%nat)
  then ascii_of_nat (n + 32) else c.

(** [s.lower()] *)
Fixpoint lower (s : string) : string :=
  match s with
  | EmptyString => EmptyString
  | String c t => String (lower_char c) (lower t)
  end.

(** [sub in s] *)
Fixpoint contains (sub s : string) : bool :=
  String.prefix sub s
  || match s with
     | EmptyString => false
     | String _ t => contains sub t
     end.

(** [s.split(sep)] for a one-character separator: never the empty list. *)
Fixpoint split (sep : ascii) (s : string) : list string :=
  match s with
  | EmptyString => [EmptyString]
  | String c t =>
      if Ascii.eqb c sep then EmptyString :: split sep t
      else match split sep t with
           | h :: r => String c h :: r
           | [] => [String c EmptyString]
           end
  end.

(** [s.split(sep, 1)]: at most one cut, at the first separator. *)
Fixpoint split1 (sep : ascii) (s : string) : list string :=
  match s with
  | EmptyString => [EmptyString]
  | String c t =>
      if Ascii.eqb c sep then [EmptyString; t]
      else match split1 sep t with
           | h :: r => String c h :: r
           | [] => [String c EmptyString]
           end
  end.

(** Characters removed by [str.strip()] with no argument. *)
Definition is_space (c : ascii) : bool :=
  let n := nat_of_ascii c in
  ((9 <=? n)%nat && (n <=? 13)%nat)
  || ((28 <=? n)%nat && (n <=? 32)%nat)
  || (n =? 133)%nat || (n =? 160)%nat.

Fixpoint lstrip (s : string) : string :=
  match s with
  | EmptyString => EmptyString
  | String c t => if is_space c then lstrip t else s
  end.

Fixpoint rstrip (s : string) : string :=
  match s with
  | EmptyString => EmptyString
  | String c t =>
      match rstrip t with
      | EmptyString => if is_space c then EmptyString else String c EmptyString
      | t' => String c t'
      end
  end.

(** [s.strip()] *)
Definition strip (s : string) : string := lstrip (rstrip s).

End PyStr.

Import PyStr.

(** ** Documents, exceptions, configuration, external services *)

(** Field values that occur in the handler's dicts. *)
Inductive value :=
| VStr (s : string)
| VBool (b : bool)
| VTime (t : Z).

#[global] Instance value_eq_dec : EqDecision value := ltac:(solve_decision).

(** A Python dict with string keys / a MongoDB document. *)
Abbreviation doc := (gmap string value).

(** Exceptions caught by [except Exception]. *)
Inductive exn :=
| KeyError (key : string)
| IndexError (msg : string)
| ServiceError (msg : string).

(** [str(e)]; a [KeyError] prints the [repr] of its key. *)
Definition str_exn (e : exn) : string :=
  match e with
  | KeyError k => "'" +:+ k +:+ "'"
  | IndexError m => m
  | ServiceError m => m
  end.

(** [email.mime.text.MIMEText] with the three headers the code sets. *)
Record MIMEText := {
  payload : string;
  Subject : string;
  From : string;
  To : string
}.

(** [app.config]: the entries read by the modelled code. [config.py] is not
    part of the sources, so the values are parameters. The specification
    takes the history cap to be non-negative; the code accepts any integer,
    and a statement that needs the sign says so. *)
Record Config := {
  MAX_CHAT_HISTORY : Z;
  CONTACT_PROMPT : string;
  EMAIL_USER : string;
  RECIPIENT_EMAIL : string
}.

(** The external collaborators.
    - [generate_content p] is [model.generate_content(p).text];
    - [chats_insert_one]/[leads_insert_one] say whether [insert_one] raises,
      given the collection and the new document;
    - [smtp_deliver] stands for the whole [with smtplib.SMTP(...)] block;
    - [utcnow n] is the value of the [n]-th call of [datetime.utcnow()], and
      [str_datetime] its [str()]. *)
Record Env := {
  generate_content : string → exn + string;
  chats_insert_one : list doc → doc → option exn;
  leads_insert_one : list doc → doc → option exn;
  smtp_deliver : MIMEText → option exn;
  utcnow : nat → Z;
  str_datetime : Z → string
}.

(** The state the handler acts on. [chat_logs] and [leads] are the two
    collections in insertion order, [outbox] the mails handed to the
    transport, [stdout] the printed lines. Three call logs record what the
    handler asked of its helpers: [model_calls] the prompts sent to the
    model, [extract_calls] the messages given to [extract_contact_info],
    [notify_calls] the arguments of [send_contact_email]. [ticks] counts the
    calls of [utcnow]. *)
Record World := {
  chat_logs : list doc;
  leads : list doc;
  outbox : list MIMEText;
  stdout : list string;
  model_calls : list string;
  extract_calls : list string;
  notify_calls : list doc;
  ticks : nat
}.

Definition empty_world : World :=
  {| chat_logs := []; leads := []; outbox := []; stdout := [];
     model_calls := []; extract_calls := []; notify_calls := [];
     ticks := 0%nat |}.

Definition add_chat_log (d : doc) (w : World) : World :=
  {| chat_logs := chat_logs w ++ [d]; leads := leads w; outbox := outbox w;
     stdout := stdout w; model_calls := model_calls w;
     extract_calls := extract_calls w; notify_calls := notify_calls w;
     ticks := ticks w |}.

Definition add_lead (d : doc) (w : World) : World :=
  {| chat_logs := chat_logs w; leads := leads w ++ [d]; outbox := outbox w;
     stdout := stdout w; model_calls := model_calls w;
     extract_calls := extract_calls w; notify_calls := notify_calls w;
     ticks := ticks w |}.

Definition add_mail (m : MIMEText) (w : World) : World :=
  {| chat_logs := chat_logs w; leads := leads w; outbox := outbox w ++ [m];
     stdout := stdout w; model_calls := model_calls w;
     extract_calls := extract_calls w; notify_calls := notify_calls w;
     ticks := ticks w |}.

Definition add_stdout (line : string) (w : World) : World :=
  {| chat_logs := chat_logs w; leads := leads w; outbox := outbox w;
     stdout := stdout w ++ [line]; model_calls := model_calls w;
     extract_calls := extract_calls w; notify_calls := notify_calls w;
     ticks := ticks w |}.

Definition add_model_call (p : string) (w : World) : World :=
  {| chat_logs := chat_logs w; leads := leads w; outbox := outbox w;
     stdout := stdout w; model_calls := model_calls w ++ [p];
     extract_calls := extract_calls w; notify_calls := notify_calls w;
     ticks := ticks w |}.

Definition add_extract_call (message : string) (w : World) : World :=
  {| chat_logs := chat_logs w; leads := leads w; outbox := outbox w;
     stdout := stdout w; model_calls := model_calls w;
     extract_calls := extract_calls w ++ [message];
     notify_calls := notify_calls w; ticks := ticks w |}.

Definition add_notify_call (contact_info : doc) (w : World) : World :=
  {| chat_logs := chat_logs w; leads := leads w; outbox := outbox w;
     stdout := stdout w; model_calls := model_calls w;
     extract_calls := extract_calls w;
     notify_calls := notify_calls w ++ [contact_info]; ticks := ticks w |}.

Definition tick (w : World) : World :=
  {| chat_logs := chat_logs w; leads := leads w; outbox := outbox w;
     stdout := stdout w; model_calls := model_calls w;
     extract_calls := extract_calls w; notify_calls := notify_calls w;
     ticks := S (ticks w) |}.

(** ** The state-and-exception monad *)

Definition M (A : Type) : Type := World → (exn + A) * World.

#[global] Instance M_ret : MRet M := λ A (a : A) w, (inr a, w).

#[global] Instance M_bind : MBind M := λ A B (f : A → M B) (m : M A) w,
  match m w with
  | (inl e, w') => (inl e, w')
  | (inr a, w') => f a w'
  end.

(** A pure computation that may raise, run inside [M]. *)
Definition lift {A} (r : exn + A) : M A := λ w, (r, w).

(** [try: body except Exception as e: handler(e)]; the effects of the body up
    to the exception stay. *)
Definition try_except {A} (body : M A) (handler : exn → M A) : M A := λ w,
  match body w with
  | (inl e, w') => handler e w'
  | (inr a, w') => (inr a, w')
  end.

Definition print (line : string) : M unit := λ w, (inr (), add_stdout line w).

Section Handler.

Variable cfg : Config.
Variable env : Env.

(** [datetime.utcnow()] *)
Definition now : M Z := λ w, (inr (utcnow env (ticks w)), tick w).

(** [str(v)] as used by f-strings. *)
Definition str (v : value) : string :=
  match v with
  | VStr s => s
  | VBool true => "True"
  | VBool false => "False"
  | VTime t => str_datetime env t
  end.

(** [chats_collection.insert_one(d)] *)
Definition chats_insert (d : doc) : M unit := λ w,
  match chats_insert_one env (chat_logs w) d with
  | Some e => (inl e, w)
  | None => (inr (), add_chat_log d w)
  end.

(** [leads_collection.insert_one(d)] *)
Definition leads_insert (d : doc) : M unit := λ w,
  match leads_insert_one env (leads w) d with
  | Some e => (inl e, w)
  | None => (inr (), add_lead d w)
  end.

(** [model.generate_content(p).text] *)
Definition call_model (p : string) : M string := λ w,
  (generate_content env p, add_model_call p w).

(** The SMTP block of [send_contact_email]. *)
Definition smtp_send (m : MIMEText) : M unit := λ w,
  match smtp_deliver env m with
  | Some e => (inl e, w)
  | None => (inr (), add_mail m w)
  end.

(** Entries of the call logs; they change nothing the code can observe. *)
Definition log_notify (contact_info : doc) : M unit := λ w,
  (inr (), add_notify_call contact_info w).

Definition log_extract (message : string) : M unit := λ w,
  (inr (), add_extract_call message w).

(** *** [generate_response] (app.py, lines 34-60) *)

Definition SYSTEM_PROMPT : string := "
You are a customer service chatbot for Sattva Tech company. Your role is to:
1. Answer questions about the company, its services, and job vacancies
2. Politely decline to answer questions not related to the company
3. Ask for contact information when appropriate

Guidelines:
- Keep responses professional and friendly
- For off-topic questions, respond with the configured OFF_TOPIC_RESPONSE
- When appropriate, ask the configured CONTACT_PROMPT
- Never make up information
".

Definition FALLBACK : string :=
  "I'm having trouble processing your request. Please try again later.".

(** [l[start:]] with Python's treatment of negative and out-of-range
    starts. *)
Definition slice_from {A} (start : Z) (l : list A) : list A :=
  let len := Z.of_nat (length l) in
  let s := if start <? 0 then Z.max (start + len) 0 else Z.min start len in
  drop (Z.to_nat s) l.

(** [d[k]] *)
Definition getitem (d : doc) (k : string) : exn + value :=
  match d !! k with
  | Some v => inr v
  | None => inl (KeyError k)
  end.

(** The f-string of line 53; [msg['role']] is evaluated first. *)
Definition format_turn (msg : doc) : exn + string :=
  match getitem msg "role" with
  | inl e => inl e
  | inr r =>
      match getitem msg "content" with
      | inl e => inl e
      | inr c => inr (str r +:+ ": " +:+ str c +:+ nl)
      end
  end.

(** The loop of lines 52-53 over the already sliced history. *)
Fixpoint append_turns (context : string) (turns : list doc) : exn + string :=
  match turns with
  | [] => inr context
  | msg :: rest =>
      match format_turn msg with
      | inl e => inl e
      | inr line => append_turns (context +:+ line) rest
      end
  end.

(** Lines 51-55: the prompt handed to the model. *)
Definition full_prompt (prompt : string) (chat_history : list doc)
  : exn + string :=
  match append_turns (SYSTEM_PROMPT +:+ nl +:+ nl +:+ "Chat history:" +:+ nl)
          (slice_from (- MAX_CHAT_HISTORY cfg) chat_history) with
  | inl e => inl e
  | inr context =>
      inr (context +:+ nl +:+ "User: " +:+ prompt +:+ nl +:+ "Assistant:")
  end.

Definition generate_response (prompt : string) (chat_history : list doc)
  : M string :=
  try_except
    (p ← lift (full_prompt prompt chat_history);
     call_model p)
    (λ e, print ("Error generating response: " +:+ str_exn e);;
          mret FALLBACK).

(** *** [store_chat] (lines 62-70) *)

(** The dict of lines 64-69. *)
Definition chat_data (session_id role message : string) (t : Z) : doc :=
  <["timestamp" := VTime t]>
    (<["message" := VStr message]>
       (<["role" := VStr role]>
          (<["session_id" := VStr session_id]> ∅))).

Definition store_chat (session_id role message : string) : M unit :=
  t ← now;
  chats_insert (chat_data session_id role message t).

(** *** [send_contact_email] (lines 82-102) *)

(** [contact_info.get(k, default)] rendered in an f-string. *)
Definition get_str (contact_info : doc) (k default : string) : string :=
  match contact_info !! k with
  | Some v => str v
  | None => default
  end.

Definition mail_body (contact_info : doc) (t : Z) : string :=
  "New contact request:" +:+ nl +:+ nl
  +:+ "Name: " +:+ get_str contact_info "name" "Not provided" +:+ nl
  +:+ "Email: " +:+ get_str contact_info "email" "Not provided" +:+ nl
  +:+ "Phone: " +:+ get_str contact_info "phone" "Not provided" +:+ nl
  +:+ "Interest: " +:+ get_str contact_info "interest" "General inquiry"
  +:+ nl +:+ nl
  +:+ "Timestamp: " +:+ str_datetime env t.

(** The message of lines 85-95, composed when the clock shows [t]. *)
Definition contact_mail (contact_info : doc) (t : Z) : MIMEText :=
  {| payload := mail_body contact_info t;
     Subject := "New Contact Request from Chatbot";
     From := EMAIL_USER cfg;
     To := RECIPIENT_EMAIL cfg |}.

Definition send_contact_email (contact_info : doc) : M unit :=
  log_notify contact_info;;
  try_except
    (t ← now;
     smtp_send (contact_mail contact_info t))
    (λ e, print ("Error sending email: " +:+ str_exn e)).

(** *** [store_lead] (lines 72-80) *)

(** The dict of lines 74-78. *)
Definition lead_data (contact_info : doc) (t : Z) : doc :=
  <["followed_up" := VBool false]>
    (<["timestamp" := VTime t]> contact_info).

Definition store_lead (contact_info : doc) : M unit :=
  t ← now;
  leads_insert (lead_data contact_info t);;
  send_contact_email contact_info.

(** *** [extract_contact_info] (lines 104-116) *)

(** [line.split(':', 1)[1].strip()] *)
Definition field_text (line : string) : exn + string :=
  match split1 ":" line !! 1%nat with
  | Some v => inr (strip v)
  | None => inl (IndexError "list index out of range")
  end.

Definition set_field (info : doc) (key line : string) : exn + doc :=
  match field_text line with
  | inl e => inl e
  | inr v => inr (<[key := VStr v]> info)
  end.

Fixpoint extract_lines (info : doc) (lines : list string) : exn + doc :=
  match lines with
  | [] => inr info
  | line :: rest =>
      let step :=
        if contains "name:" (lower line) then set_field info "name" line
        else if contains "email:" (lower line) then set_field info "email" line
        else if contains "phone:" (lower line) then set_field info "phone" line
        else inr info in
      match step with
      | inl e => inl e
      | inr info' => extract_lines info' rest
      end
  end.

Definition extract_contact_info (message : string) : exn + doc :=
  extract_lines ∅ (split (ascii_of_nat 10) message).

(** *** The history query of [chat] (lines 134-137) *)

(** Order of the sort key: a missing field sorts first, then strings,
    booleans and dates, as MongoDB compares values of different types. *)
Definition key_le (a b : option value) : bool :=
  match a, b with
  | None, _ => true
  | Some _, None => false
  | Some (VStr x), Some (VStr y) => String.leb x y
  | Some (VStr _), Some _ => true
  | Some (VBool _), Some (VStr _) => false
  | Some (VBool x), Some (VBool y) => implb x y
  | Some (VBool _), Some (VTime _) => true
  | Some (VTime x), Some (VTime y) => x <=? y
  | Some (VTime _), Some _ => false
  end.

Fixpoint insert_by_timestamp (d : doc) (l : list doc) : list doc :=
  match l with
  | [] => [d]
  | d' :: r =>
      if key_le (d !! "timestamp") (d' !! "timestamp") then d :: l
      else d' :: insert_by_timestamp d r
  end.

(** [.sort("timestamp", 1)]; documents with equal keys keep their
    insertion order. *)
Definition sort_by_timestamp (l : list doc) : list doc :=
  foldr insert_by_timestamp [] l.

(** The projection [{"_id": 0, "role": 1, "message": 1}]. *)
Definition project (d : doc) : doc :=
  filter (λ kv, kv.1 = "role" ∨ kv.1 = "message") d.

(** [list(chats_collection.find({"session_id": sid}, ...).sort(...))]; the
    [_id] the driver adds to stored documents is excluded by the projection
    and is not modelled. *)
Definition find_history (logs : list doc) (session_id : string) : list doc :=
  project <$>
    sort_by_timestamp
      (filter (λ d, d !! "session_id" = Some (VStr session_id)) logs).

Definition load_history (session_id : string) : M (list doc) := λ w,
  (inr (find_history (chat_logs w) session_id), w).

(** *** [chat] (lines 123-157) *)

(** The JSON body of the request: both fields are optional. *)
Record Request := {
  req_session_id : option string;
  req_message : option string
}.

Definition THANKS : string :=
  nl +:+ nl
  +:+ "Thank you for your contact information! Our team will reach out to you soon.".

(** Line 143. The test is pure; [capture_lead] evaluates it where line 149
    uses it. *)
Definition contact_requested (response : string) : bool :=
  contains (lower (CONTACT_PROMPT cfg)) (lower response).

(** The [any(...)] of line 149. *)
Definition mentions_keyword (message : string) : bool :=
  existsb (λ keyword, contains keyword (lower message))
    ["name"; "email"; "phone"].

(** Lines 152-153: the two keys added to the extraction result. *)
Definition tag_lead (session_id : string) (contact_info : doc) : doc :=
  <["interest" := VStr "From chat"]>
    (<["session_id" := VStr session_id]> contact_info).

(** Lines 149-155, given the reply computed so far; returns the final
    reply. *)
Definition capture_lead (session_id message response : string) : M string :=
  if contact_requested response && mentions_keyword message then
    log_extract message;;
    contact_info ← lift (extract_contact_info message);
    if bool_decide (contact_info ≠ ∅) then
      store_lead (tag_lead session_id contact_info);;
      mret (response +:+ THANKS)
    else mret response
  else mret response.

(** Lines 139-157, given the loaded history. *)
Definition reply_with_history (session_id message : string)
    (chat_history : list doc) : M string :=
  response ← generate_response message chat_history;
  store_chat session_id "assistant" response;;
  capture_lead session_id message response.

Definition chat (data : Request) : M string :=
  let session_id := default "default_session" (req_session_id data) in
  let message := default EmptyString (req_message data) in
  store_chat session_id "user" message;;
  chat_history ← load_history session_id;
  reply_with_history session_id message chat_history.

End Handler.

(** ** Reference definitions that follow the specification's wording *)

(** The text after the first colon of [s], if [s] has a colon. *)
Fixpoint after_first_colon (s : string) : option string :=
  match s with
  | EmptyString => None
  | String c t => if Ascii.eqb c ":" then Some t else after_first_colon t
  end.


(** The marker table of the extractor in priority order: the marker text
    and the field it fills. *)
Definition markers : list (string * string) :=
  [("name:", "name"); ("email:", "email"); ("phone:", "phone")].

(** The field a line fills: that of the first marker of the table found in
    the lower-cased line. *)
Definition line_marker (line : string) : option string :=
  snd <$> List.find (λ m, contains m.1 (lower line)) markers.

(** The assignment a line makes, as the specification words it: the matched
    field receives the text after the line's first colon, trimmed. *)
Definition line_assignment (line : string) : option (string * string) :=
  key ← line_marker line;
  text ← after_first_colon line;
  Some (key, strip text).

(** The extraction result as the specification words it: the assignments of
    the lines, applied in order. *)
Definition extraction_spec (message : string) : doc :=
  foldl
    (λ info line,
       match line_assignment line with
       | Some (key, text) => <[key := VStr text]> info
       | None => info
       end)
    ∅ (split (ascii_of_nat 10) message).

(** The fields the specification's data model requires of a lead record:
    the session, the fixed interest label, [followed_up = false] and every
    extracted field. *)
Definition carries_lead (session_id : string) (info d : doc) : Prop :=
  d !! "session_id" = Some (VStr session_id)
  ∧ d !! "interest" = Some (VStr "From chat")
  ∧ d !! "followed_up" = Some (VBool false)
  ∧ info ⊆ d.

(** A turn in the shape the loop of [generate_response] reads. *)
Definition content_turn (role content : string) : doc :=
  <["content" := VStr content]> (<["role" := VStr role]> ∅).

(** A turn in the shape the history query returns. *)
Definition message_turn (role message : string) : doc :=
  <["message" := VStr message]> (<["role" := VStr role]> ∅).

(** A turn the loop of [generate_response] can render. *)
Definition renderable (msg : doc) : Prop :=
  is_Some (msg !! "role") ∧ is_Some (msg !! "content").

(** The line of a turn in the prompt. *)
Definition turn_line (env : Env) (msg : doc) : string :=
  match msg !! "role", msg !! "content" with
  | Some r, Some c => str env r +:+ ": " +:+ str env c +:+ nl
  | _, _ => EmptyString
  end.

(** The history block of the prompt for a sequence of turns. *)
Definition history_block (env : Env) (turns : list doc) : string :=
  foldr (λ msg block, turn_line env msg +:+ block) EmptyString turns.

(** The prompt for a given sequence of history turns: the preamble, the
    turns one per line, the current user message. *)
Definition prompt_of (env : Env) (prompt : string) (turns : list doc) : string :=
  (SYSTEM_PROMPT +:+ nl +:+ nl +:+ "Chat history:" +:+ nl)
  +:+ history_block env turns
  +:+ nl +:+ "User: " +:+ prompt +:+ nl +:+ "Assistant:".

(** The last [n] elements of a list, all of them when it is shorter. *)
Definition last_n {A} (n : nat) (l : list A) : list A :=
  drop (length l - n) l.

(** A session is unknown to a store when no document carries its id. *)
Definition unknown_session (logs : list doc) (session_id : string) : Prop :=
  ∀ d, d ∈ logs → d !! "session_id" ≠ Some (VStr session_id).

(** Effects that leave the lead store, the mail transport and the
    notification log as they were. *)
Definition keeps_leads (w w' : World) : Prop :=
  leads w' = leads w ∧ outbox w' = outbox w
  ∧ notify_calls w' = notify_calls w.

(** ** Concrete configurations and services used in the examples *)

Module Demo.

Definition cfg : Config :=
  {| MAX_CHAT_HISTORY := 10;
     CONTACT_PROMPT := "Could you please share your contact information?";
     EMAIL_USER := "bot@sattva.example";
     RECIPIENT_EMAIL := "sales@sattva.example" |}.

(** The same configuration with the history cap set to zero. *)
Definition cfg_zero : Config :=
  {| MAX_CHAT_HISTORY := 0;
     CONTACT_PROMPT := CONTACT_PROMPT cfg;
     EMAIL_USER := EMAIL_USER cfg;
     RECIPIENT_EMAIL := RECIPIENT_EMAIL cfg |}.

Definition reply : string :=
  "Happy to help. Could you please share your contact information?".

Definition down : exn := ServiceError "connection refused".

(** All services up; the model always answers [reply]. *)
Definition env : Env :=
  {| generate_content := λ _, inr reply;
     chats_insert_one := λ _ _, None;
     leads_insert_one := λ _ _, None;
     smtp_deliver := λ _, None;
     utcnow := λ n, Z.of_nat n;
     str_datetime := λ _, "2024-01-01 00:00:00" |}.

(** The model echoes its prompt, which makes the prompt observable. *)
Definition env_echo : Env :=
  {| generate_content := λ p, inr p;
     chats_insert_one := chats_insert_one env;
     leads_insert_one := leads_insert_one env;
     smtp_deliver := smtp_deliver env;
     utcnow := utcnow env;
     str_datetime := str_datetime env |}.

Definition env_model_down : Env :=
  {| generate_content := λ _, inl down;
     chats_insert_one := chats_insert_one env;
     leads_insert_one := leads_insert_one env;
     smtp_deliver := smtp_deliver env;
     utcnow := utcnow env;
     str_datetime := str_datetime env |}.

Definition env_chats_down : Env :=
  {| generate_content := generate_content env;
     chats_insert_one := λ _ _, Some down;
     leads_insert_one := leads_insert_one env;
     smtp_deliver := smtp_deliver env;
     utcnow := utcnow env;
     str_datetime := str_datetime env |}.

Definition env_leads_down : Env :=
  {| generate_content := generate_content env;
     chats_insert_one := chats_insert_one env;
     leads_insert_one := λ _ _, Some down;
     smtp_deliver := smtp_deliver env;
     utcnow := utcnow env;
     str_datetime := str_datetime env |}.

Definition env_smtp_down : Env :=
  {| generate_content := generate_content env;
     chats_insert_one := chats_insert_one env;
     leads_insert_one := leads_insert_one env;
     smtp_deliver := λ _, Some down;
     utcnow := utcnow env;
     str_datetime := str_datetime env |}.

(** The history store refuses assistant turns only. *)
Definition env_assistant_write_down : Env :=
  {| generate_content := generate_content env;
     chats_insert_one := λ _ d,
       if bool_decide (d !! "role" = Some (VStr "assistant"))
       then Some down else None;
     leads_insert_one := leads_insert_one env;
     smtp_deliver := smtp_deliver env;
     utcnow := utcnow env;
     str_datetime := str_datetime env |}.

(** A configuration whose trigger phrase occurs in the fallback reply. *)
Definition cfg_retry : Config :=
  {| MAX_CHAT_HISTORY := 10;
     CONTACT_PROMPT := "Please try again later.";
     EMAIL_USER := EMAIL_USER cfg;
     RECIPIENT_EMAIL := RECIPIENT_EMAIL cfg |}.

Definition jane : string :=
  "My name: Jane Doe" +:+ nl +:+ "email: jane@x.com".

Definition bob : string := "name: Bob" +:+ nl +:+ "email: bob@x.com".

Definition bob_info : doc :=
  <["name" := VStr "Bob"]> (<["email" := VStr "bob@x.com"]> ∅).

Definition first_request : Request :=
  {| req_session_id := Some "s1"; req_message := Some "Hi" |}.

Definition bob_request : Request :=
  {| req_session_id := Some "s1"; req_message := Some bob |}.

End Demo.

(** ** Frame conditions on effects *)

(** [m] leaves the component [proj] of the world as it was, also when it
    raises. *)
Definition keeps {A X} (proj : World → X) (m : M A) : Prop :=
  ∀ w, proj (m w).2 = proj w.

(** [m] returns normally from every world. *)
Definition never_raises {A} (m : M A) : Prop :=
  ∀ w, ∃ a w', m w = (inr a, w').

(** ** Further notions used to state properties of the handler *)

(** A string without a line break. *)
Fixpoint nl_free (s : string) : bool :=
  match s with
  | EmptyString => true
  | String c t => negb (Ascii.eqb c (ascii_of_nat 10)) && nl_free t
  end.

(** The message contains one of the three extraction markers, in any
    letter case. *)
Definition has_marker (message : string) : Prop :=
  ∃ m, m ∈ ["name:"; "email:"; "phone:"] ∧ contains m (lower message) = true.

(** The order of two documents under the sort key of the history query. *)
Definition timestamp_le (a b : doc) : Prop :=
  key_le (a !! "timestamp") (b !! "timestamp") = true.

(** [m] only appends to the component [proj] of the world, at most [n]
    entries, also when it raises. *)
Definition appends {A X} (proj : World → list X) (n : nat) (m : M A) : Prop :=
  ∀ w, ∃ new, proj (m w).2 = proj w ++ new ∧ (length new ≤ n)%nat.

(** An environment whose two stores accept every write. *)
Definition stores_up (env : Env) : Prop :=
  (∀ logs d, chats_insert_one env logs d = None)
  ∧ (∀ logs d, leads_insert_one env logs d = None).

(** Two contact records that agree on the four keys the mail renders. *)
Definition same_mail_fields (a b : doc) : Prop :=
  a !! "name" = b !! "name" ∧ a !! "email" = b !! "email"
  ∧ a !! "phone" = b !! "phone" ∧ a !! "interest" = b !! "interest".

(** Every run of [m] relates the world before to the world after by [R],
    also when it raises. *)
Definition evolves {A} (R : relation World) (m : M A) : Prop :=
  ∀ w, R w (m w).2.

(** The chat log is untouched and the clock has not been set back. *)
Definition log_kept (w w' : World) : Prop :=
  chat_logs w' = chat_logs w ∧ (ticks w ≤ ticks w')%nat.

(** Successive readings of the clock never decrease. *)
Definition monotone_clock (env : Env) : Prop :=
  ∀ n m, (n ≤ m)%nat → utcnow env n ≤ utcnow env m.

(** The chat log is in ascending timestamp order and no stored timestamp
    lies after the next reading of the clock. *)
Definition store_ordered (env : Env) (w : World) : Prop :=
  StronglySorted timestamp_le (chat_logs w)
  ∧ ∀ d, d ∈ chat_logs w →
      ∃ t, d !! "timestamp" = Some (VTime t) ∧ t ≤ utcnow env (ticks w).
(** ** The primitives on concrete strings *)

Example lower_ex : lower "My Name: Jane" = "my name: jane".
Proof. reflexivity. Qed.

Example split_ex :
  split ":" "a:b:c" = ["a"; "b"; "c"] /\ split1 ":" "a:b:c" = ["a"; "b:c"]
  /\ split1 ":" "abc" = ["abc"] /\ split ":" "a:" = ["a"; EmptyString].
Proof. repeat split; reflexivity. Qed.

Example strip_ex : strip "  Jane Doe  " = "Jane Doe" /\ strip "   " = EmptyString.
Proof. split; reflexivity. Qed.

Example contains_ex :
  contains "name:" "my name: jane" = true /\ contains "phone" "my name" = false
  /\ contains EmptyString "abc" = true.
Proof. repeat split; reflexivity. Qed.

(** ** Facts about the string primitives *)

Section StringFacts.

Lemma app_nil_l (s : string) : EmptyString +:+ s = s.
Proof. reflexivity. Qed.

Lemma app_cons (c : ascii) (s t : string) :
  String c s +:+ t = String c (s +:+ t).
Proof. reflexivity. Qed.

Lemma app_nil_r (s : string) : s +:+ EmptyString = s.
Proof. induction s as [|c s IH]; [done|]. by rewrite app_cons, IH. Qed.

Lemma app_assoc (s t u : string) : (s +:+ t) +:+ u = s +:+ (t +:+ u).
Proof. induction s as [|c s IH]; [done|]. by rewrite !app_cons, IH. Qed.

Lemma lower_app (s t : string) : lower (s +:+ t) = lower s +:+ lower t.
Proof.
  induction s as [|c s IH]; [done|].
  rewrite app_cons. simpl. by rewrite IH, app_cons.
Qed.

Lemma prefix_spec (a b : string) :
  String.prefix a b = true ↔ ∃ post, b = a +:+ post.
Proof.
  revert a. induction b as [|d b IH]; intros [|c a]; simpl.
  - split; [intros _; by exists EmptyString | done].
  - split; [done | intros [post H]; rewrite app_cons in H; discriminate].
  - split; [intros _; by exists (String d b) | done].
  - destruct (ascii_dec c d) as [->|Hne].
    + rewrite IH. split; intros [post H]; exists post.
      * by rewrite app_cons, H.
      * rewrite app_cons in H. congruence.
    + split; [done | intros [post H]; rewrite app_cons in H; congruence].
Qed.

Lemma contains_nil (sub : string) :
  contains sub EmptyString = String.prefix sub EmptyString.
Proof. unfold contains. apply orb_false_r. Qed.

Lemma contains_cons (sub : string) (c : ascii) (s : string) :
  contains sub (String c s) = String.prefix sub (String c s) || contains sub s.
Proof. reflexivity. Qed.

(** [sub in s] holds exactly when [s] is [pre + sub + post]. *)
Lemma contains_spec (sub s : string) :
  contains sub s = true ↔ ∃ pre post, s = pre +:+ sub +:+ post.
Proof.
  induction s as [|c s IH].
  - rewrite contains_nil, prefix_spec. split.
    + intros [post H]. by exists EmptyString, post.
    + intros (pre & post & H). destruct pre; [|discriminate].
      by exists post.
  - rewrite contains_cons, orb_true_iff, prefix_spec, IH. split.
    + intros [[post H]|(pre & post & H)].
      * by exists EmptyString, post.
      * exists (String c pre), post. by rewrite app_cons, H.
    + intros (pre & post & H). destruct pre as [|p pre].
      * left. by exists post.
      * right. rewrite app_cons in H. exists pre, post. congruence.
Qed.

Lemma contains_inside (sub pre s post : string) :
  contains sub s = true → contains sub (pre +:+ s +:+ post) = true.
Proof.
  rewrite !contains_spec. intros (a & b & ->).
  exists (pre +:+ a), (b +:+ post). by rewrite !app_assoc.
Qed.

Lemma split_nonempty (sep : ascii) (s : string) : split sep s ≠ [].
Proof.
  induction s as [|c s IH]; simpl; [done|].
  destruct (Ascii.eqb c sep); [done|]. by destruct (split sep s).
Qed.

Lemma split_head (sep : ascii) (s h : string) (r : list string) :
  split sep s = h :: r → ∃ post, s = h +:+ post.
Proof.
  revert h r. induction s as [|c s IH]; intros h r; simpl.
  - intros [= <- <-]. by exists EmptyString.
  - destruct (Ascii.eqb c sep).
    + intros [= <- <-]. by exists (String c s).
    + destruct (split sep s) as [|h' r'] eqn:Hs.
      { by destruct (split_nonempty sep s). }
      intros [= <- <-]. destruct (IH h' r') as [post ->]; [done|].
      by exists post.
Qed.

(** Every piece of [s.split(sep)] is a contiguous part of [s]. *)
Lemma split_elem (sep : ascii) (s line : string) :
  line ∈ split sep s → ∃ pre post, s = pre +:+ line +:+ post.
Proof.
  revert line. induction s as [|c s IH]; intros line; simpl.
  - intros ->%list_elem_of_singleton. by exists EmptyString, EmptyString.
  - destruct (Ascii.eqb c sep).
    + intros [->|Hin]%elem_of_cons.
      * by exists EmptyString, (String c s).
      * destruct (IH _ Hin) as (pre & post & ->).
        by exists (String c pre), post.
    + destruct (split sep s) as [|h r] eqn:Hs.
      { by destruct (split_nonempty sep s). }
      intros [->|Hin]%elem_of_cons.
      * destruct (split_head _ _ _ _ Hs) as [post ->].
        by exists EmptyString, post.
      * destruct (IH line) as (pre & post & ->); [by right|].
        by exists (String c pre), post.
Qed.

(** A marker found in a line of the message occurs in the message. *)
Lemma contains_line (sub message line : string) :
  line ∈ split (ascii_of_nat 10) message →
  contains sub (lower line) = true →
  contains sub (lower message) = true.
Proof.
  intros (pre & post & ->)%split_elem H.
  rewrite !lower_app. by apply contains_inside.
Qed.

Lemma lower_char_colon (c : ascii) : lower_char c = ":"%char → c = ":"%char.
Proof.
  destruct c as [[] [] [] [] [] [] [] []]; vm_compute; congruence.
Qed.

Lemma split1_nonempty (sep : ascii) (s : string) : split1 sep s ≠ [].
Proof.
  induction s as [|c s IH]; simpl; [done|].
  destruct (Ascii.eqb c sep); [done|]. by destruct (split1 sep s).
Qed.

(** [s.split(':', 1)[1]] is the text after the first colon, and the index
    is out of range exactly when there is no colon. *)
Lemma split1_item1 (s : string) :
  split1 ":" s !! 1%nat = after_first_colon s.
Proof.
  induction s as [|c s IH]; simpl; [done|].
  destruct (Ascii.eqb c ":"); [done|].
  destruct (split1 ":" s) as [|h r] eqn:Hs.
  { by destruct (split1_nonempty ":" s). }
  exact IH.
Qed.

Lemma after_first_colon_lower (s pre post : string) :
  lower s = pre +:+ String ":" post → is_Some (after_first_colon s).
Proof.
  revert pre. induction s as [|c s IH]; intros pre; simpl.
  - destruct pre; discriminate.
  - destruct (Ascii.eqb_spec c ":") as [->|Hne]; [by eexists|].
    destruct pre as [|p pre].
    + rewrite app_nil_l. intros [= Hc%lower_char_colon _]. done.
    + rewrite app_cons. intros [= _ H]. by eapply IH.
Qed.

(** A line in which a marker ending in a colon is found has a colon. *)
Lemma marker_has_colon (key line : string) :
  contains (key +:+ ":") (lower line) = true →
  is_Some (after_first_colon line).
Proof.
  intros (pre & post & H)%contains_spec.
  apply (after_first_colon_lower line (pre +:+ key) post).
  by rewrite H, !app_assoc.
Qed.

End StringFacts.

(** ** The extractor *)

Section Extractor.

Lemma field_text_colon (line text : string) :
  after_first_colon line = Some text → field_text line = inr (strip text).
Proof. intros H. unfold field_text. by rewrite split1_item1, H. Qed.

(** One iteration of the loop of [extract_contact_info] does what
    [line_assignment] says, and never raises. *)
Lemma extract_lines_cons (info : doc) (line : string) (rest : list string) :
  extract_lines info (line :: rest) =
  extract_lines
    match line_assignment line with
    | Some (key, text) => <[key := VStr text]> info
    | None => info
    end rest.
Proof.
  unfold line_assignment, line_marker. simpl.
  destruct (contains "name:" (lower line)) eqn:Hn.
  { destruct (marker_has_colon "name" line Hn) as [text Ht].
    unfold set_field. by rewrite (field_text_colon _ _ Ht), Ht. }
  destruct (contains "email:" (lower line)) eqn:He.
  { destruct (marker_has_colon "email" line He) as [text Ht].
    unfold set_field. by rewrite (field_text_colon _ _ Ht), Ht. }
  destruct (contains "phone:" (lower line)) eqn:Hp.
  { destruct (marker_has_colon "phone" line Hp) as [text Ht].
    unfold set_field. by rewrite (field_text_colon _ _ Ht), Ht. }
  done.
Qed.

Lemma extract_lines_foldl (lines : list string) (info : doc) :
  extract_lines info lines =
  inr (foldl
         (λ info line,
            match line_assignment line with
            | Some (key, text) => <[key := VStr text]> info
            | None => info
            end)
         info lines).
Proof.
  revert info. induction lines as [|line rest IH]; intros info; [done|].
  by rewrite extract_lines_cons, IH.
Qed.

(** [extract_contact_info] never raises: the index [1] of line 111, 113
    or 115 is in range whenever its marker was found. *)
Lemma extract_contact_info_total (message : string) :
  extract_contact_info message = inr (extraction_spec message).
Proof. apply extract_lines_foldl. Qed.

(** A line without any marker makes no assignment. *)
Lemma line_assignment_none (line : string) :
  (∀ m, m ∈ ["name:"; "email:"; "phone:"] → contains m (lower line) = false) →
  line_assignment line = None.
Proof.
  intros H. unfold line_assignment, line_marker. simpl.
  rewrite !H; [done|set_solver..].
Qed.

(** The keys of an extraction result are among the three fields. *)
Lemma line_assignment_key (line key text : string) :
  line_assignment line = Some (key, text) →
  key ∈ ["name"; "email"; "phone"].
Proof.
  unfold line_assignment, line_marker. simpl.
  repeat case_match; simpl; try done;
    destruct (after_first_colon line); simpl; intros [= <- _]; set_solver.
Qed.

Lemma extraction_keys_foldl (lines : list string) (info : doc) (k : string) :
  is_Some
    (foldl
       (λ info line,
          match line_assignment line with
          | Some (key, text) => <[key := VStr text]> info
          | None => info
          end)
       info lines !! k) →
  is_Some (info !! k) ∨ k ∈ ["name"; "email"; "phone"].
Proof.
  revert info. induction lines as [|line rest IH]; intros info; simpl.
  { by left. }
  intros [H|H]%IH; [|by right].
  destruct (line_assignment line) as [[key text]|] eqn:Hl; [|by left].
  destruct (decide (key = k)) as [<-|Hne].
  - right. by eapply line_assignment_key.
  - left. by rewrite lookup_insert_ne in H.
Qed.

Lemma extraction_keys (message k : string) :
  is_Some (extraction_spec message !! k) → k ∈ ["name"; "email"; "phone"].
Proof.
  intros [H|H]%extraction_keys_foldl; [|done].
  rewrite lookup_empty in H. by destruct H.
Qed.

End Extractor.

(** ** Laws of the effect monad and frame rules *)

Section MonadFacts.

Context {A B : Type}.

Lemma bind_unfold (m : M A) (f : A → M B) (w : World) :
  (m ≫= f) w =
  match m w with
  | (inl e, w') => (inl e, w')
  | (inr a, w') => f a w'
  end.
Proof. reflexivity. Qed.

Lemma bind_inr (m : M A) (f : A → M B) (w w' : World) (a : A) :
  m w = (inr a, w') → (m ≫= f) w = f a w'.
Proof. intros H. by rewrite bind_unfold, H. Qed.

Lemma bind_inl (m : M A) (f : A → M B) (w w' : World) (e : exn) :
  m w = (inl e, w') → (m ≫= f) w = (inl e, w').
Proof. intros H. by rewrite bind_unfold, H. Qed.

(** A sequence that returns normally went through both of its parts. *)
Lemma bind_inv (m : M A) (f : A → M B) (w w' : World) (b : B) :
  (m ≫= f) w = (inr b, w') →
  ∃ a w1, m w = (inr a, w1) ∧ f a w1 = (inr b, w').
Proof.
  rewrite bind_unfold. destruct (m w) as [[e|a] w1]; [done|]. by exists a, w1.
Qed.

Lemma keeps_bind {X} (proj : World → X) (m : M A) (f : A → M B) :
  keeps proj m → (∀ a, keeps proj (f a)) → keeps proj (m ≫= f).
Proof.
  intros Hm Hf w. rewrite bind_unfold. specialize (Hm w).
  destruct (m w) as [[e|a] w1]; simpl in *; [done|].
  by rewrite Hf.
Qed.

Lemma keeps_try {X} (proj : World → X) (m : M A) (h : exn → M A) :
  keeps proj m → (∀ e, keeps proj (h e)) → keeps proj (try_except m h).
Proof.
  intros Hm Hh w. unfold try_except. specialize (Hm w).
  destruct (m w) as [[e|a] w1]; simpl in *; [|done].
  by rewrite Hh.
Qed.

Lemma keeps_ret {X} (proj : World → X) (a : A) : keeps proj (mret a).
Proof. by intros w. Qed.

Lemma keeps_lift {X} (proj : World → X) (r : exn + A) : keeps proj (lift r).
Proof. by intros w. Qed.

End MonadFacts.

(** Decomposes a frame goal along the structure of the computation and
    settles the primitive effects by computation. *)
Ltac keeps_step :=
  first
    [ apply keeps_bind; [|intros ?]
    | apply keeps_try; [|intros ?]
    | apply keeps_ret
    | apply keeps_lift
    | (intros ?w;
       cbv [print now chats_insert leads_insert call_model smtp_send
            log_notify log_extract];
       repeat case_match; reflexivity) ].

Ltac keeps_auto := repeat keeps_step.

Section Frames.

Variable cfg : Config.
Variable env : Env.

(** [generate_response] touches only [stdout] and the model log. *)
Lemma generate_response_keeps {X} (proj : World → X) prompt chat_history :
  (∀ line w, proj (add_stdout line w) = proj w) →
  (∀ p w, proj (add_model_call p w) = proj w) →
  keeps proj (generate_response cfg env prompt chat_history).
Proof.
  intros Hout Hcall. unfold generate_response.
  apply keeps_try; [apply keeps_bind; [apply keeps_lift|]|].
  - intros p w. apply Hcall.
  - intros e. apply keeps_bind; [|intros; apply keeps_ret].
    intros w. apply Hout.
Qed.

(** [store_chat] touches only the chat log and the clock. *)
Lemma store_chat_keeps {X} (proj : World → X) session_id role message :
  (∀ d w, proj (add_chat_log d w) = proj w) →
  (∀ w, proj (tick w) = proj w) →
  keeps proj (store_chat env session_id role message).
Proof.
  intros Hlog Htick w. unfold store_chat, now, chats_insert.
  rewrite bind_unfold. case_match; simpl; [by rewrite Htick|].
  by rewrite Hlog, Htick.
Qed.

Lemma load_history_keeps {X} (proj : World → X) session_id :
  keeps proj (load_history session_id).
Proof. by intros w. Qed.

Lemma store_lead_keeps_extract_calls contact_info :
  keeps extract_calls (store_lead cfg env contact_info).
Proof. unfold store_lead, send_contact_email. keeps_auto. Qed.

Lemma store_lead_keeps_chat_logs contact_info :
  keeps chat_logs (store_lead cfg env contact_info).
Proof. unfold store_lead, send_contact_email. keeps_auto. Qed.

End Frames.

(** ** The history slice *)

Section Slice.

Context {A : Type}.
Implicit Types l : list A.

(** A positive cap selects the trailing turns. *)
Lemma slice_from_neg (n : Z) l :
  0 < n → slice_from (- n) l = last_n (Z.to_nat n) l.
Proof.
  intros Hn. unfold slice_from, last_n.
  destruct (Z.ltb_spec (- n) 0); [|lia]. f_equal. lia.
Qed.

(** A zero cap selects everything: [l[-0:]] is [l[0:]]. *)
Lemma slice_from_zero l : slice_from (- 0) l = l.
Proof. unfold slice_from. simpl. by rewrite Z.min_l by lia. Qed.

Lemma slice_from_elem (start : Z) l x : x ∈ slice_from start l → x ∈ l.
Proof. unfold slice_from. apply subseteq_drop. Qed.

Lemma slice_from_nonempty (n : Z) l :
  0 ≤ n → l ≠ [] → slice_from (- n) l ≠ [].
Proof.
  intros Hn Hl Hnil. apply Hl.
  destruct (decide (n = 0)) as [->|Hne].
  { by rewrite slice_from_zero in Hnil. }
  rewrite slice_from_neg in Hnil by lia.
  apply drop_nil_inv in Hnil. destruct l; [done|]. simpl in Hnil. lia.
Qed.

Lemma last_n_length (n : nat) l : length (last_n n l) = Nat.min n (length l).
Proof. unfold last_n. rewrite length_drop. lia. Qed.

Lemma last_n_all (n : nat) l : (length l ≤ n)%nat → last_n n l = l.
Proof. intros H. unfold last_n. by replace (length l - n)%nat with 0%nat by lia. Qed.

(** [last_n] keeps a suffix: the original order, nothing inserted. *)
Lemma last_n_suffix (n : nat) l : ∃ front, l = front ++ last_n n l.
Proof. exists (take (length l - n) l). unfold last_n. by rewrite take_drop. Qed.

End Slice.

(** ** The context builder *)

Section Context.

Variable cfg : Config.
Variable env : Env.

Lemma format_turn_renderable (msg : doc) :
  renderable msg → format_turn env msg = inr (turn_line env msg).
Proof.
  intros [[r Hr] [c Hc]]. unfold format_turn, turn_line, getitem.
  by rewrite Hr, Hc.
Qed.

(** A turn without a [content] key stops the loop with a [KeyError]. *)
Lemma format_turn_no_content (msg : doc) :
  msg !! "content" = None →
  ∃ key, (key = "role" ∨ key = "content")
         ∧ format_turn env msg = inl (KeyError key).
Proof.
  intros Hc. unfold format_turn, getitem. rewrite Hc.
  destruct (msg !! "role"); [exists "content" | exists "role"]; auto.
Qed.

Lemma append_turns_renderable (turns : list doc) (context : string) :
  Forall renderable turns →
  append_turns env context turns = inr (context +:+ history_block env turns).
Proof.
  intros H. revert context.
  induction H as [|msg turns Hmsg _ IH]; intros context; simpl.
  - by rewrite app_nil_r.
  - by rewrite (format_turn_renderable _ Hmsg), IH, app_assoc.
Qed.

Lemma append_turns_no_content (msg : doc) (rest : list doc) (context : string) :
  msg !! "content" = None →
  ∃ key, (key = "role" ∨ key = "content")
         ∧ append_turns env context (msg :: rest) = inl (KeyError key).
Proof.
  intros (key & Hkey & H)%format_turn_no_content.
  exists key. split; [done|]. simpl. by rewrite H.
Qed.

(** The prompt for renderable turns, for any value of the cap. *)
Lemma full_prompt_renderable (prompt : string) (chat_history : list doc) :
  Forall renderable chat_history →
  full_prompt cfg env prompt chat_history =
  inr (prompt_of env prompt
         (slice_from (- MAX_CHAT_HISTORY cfg) chat_history)).
Proof.
  intros H. unfold full_prompt, prompt_of, slice_from.
  rewrite append_turns_renderable by by apply Forall_drop.
  by rewrite !app_assoc.
Qed.

(** With a cap of at least one, the prompt holds exactly the trailing
    [MAX_CHAT_HISTORY] turns, all turns when the history is shorter. *)
Lemma full_prompt_window (prompt : string) (chat_history : list doc) :
  0 < MAX_CHAT_HISTORY cfg →
  Forall renderable chat_history →
  full_prompt cfg env prompt chat_history =
  inr (prompt_of env prompt
         (last_n (Z.to_nat (MAX_CHAT_HISTORY cfg)) chat_history)).
Proof.
  intros Hmax H. by rewrite full_prompt_renderable, slice_from_neg.
Qed.

(** With a cap of zero, the prompt holds every turn of the history. *)
Lemma full_prompt_zero_cap (prompt : string) (chat_history : list doc) :
  MAX_CHAT_HISTORY cfg = 0 →
  Forall renderable chat_history →
  full_prompt cfg env prompt chat_history =
  inr (prompt_of env prompt chat_history).
Proof.
  intros Hmax H. by rewrite full_prompt_renderable, Hmax, slice_from_zero.
Qed.

Lemma full_prompt_empty (prompt : string) :
  full_prompt cfg env prompt [] = inr (prompt_of env prompt []).
Proof.
  rewrite full_prompt_renderable by constructor.
  unfold slice_from. by rewrite drop_nil.
Qed.

(** The three ways [generate_response] ends. *)
Lemma generate_response_keyerror prompt chat_history e w :
  full_prompt cfg env prompt chat_history = inl e →
  generate_response cfg env prompt chat_history w =
  (inr FALLBACK, add_stdout ("Error generating response: " +:+ str_exn e) w).
Proof.
  intros H. unfold generate_response, try_except, lift.
  by rewrite bind_unfold, H.
Qed.

Lemma generate_response_model_error prompt chat_history p e w :
  full_prompt cfg env prompt chat_history = inr p →
  generate_content env p = inl e →
  generate_response cfg env prompt chat_history w =
  (inr FALLBACK,
   add_stdout ("Error generating response: " +:+ str_exn e)
     (add_model_call p w)).
Proof.
  intros H He. unfold generate_response, try_except, lift, call_model.
  by rewrite bind_unfold, H, He.
Qed.

Lemma generate_response_model_ok prompt chat_history p text w :
  full_prompt cfg env prompt chat_history = inr p →
  generate_content env p = inr text →
  generate_response cfg env prompt chat_history w =
  (inr text, add_model_call p w).
Proof.
  intros H He. unfold generate_response, try_except, lift, call_model.
  by rewrite bind_unfold, H, He.
Qed.

Lemma generate_response_never_raises prompt chat_history :
  never_raises (generate_response cfg env prompt chat_history).
Proof.
  intros w. destruct (full_prompt cfg env prompt chat_history) as [e|p] eqn:H.
  { rewrite (generate_response_keyerror _ _ _ _ H). eauto. }
  destruct (generate_content env p) as [e|text] eqn:He.
  - rewrite (generate_response_model_error _ _ _ _ _ H He). eauto.
  - rewrite (generate_response_model_ok _ _ _ _ _ H He). eauto.
Qed.

End Context.

(** ** The history query *)

Section History.

Lemma project_lookup (d : doc) (k : string) :
  project d !! k = if decide (k = "role" ∨ k = "message") then d !! k else None.
Proof.
  unfold project. case_decide as Hk.
  - destruct (d !! k) as [v|] eqn:Hd.
    + by apply map_lookup_filter_Some.
    + apply map_lookup_filter_None. by left.
  - apply map_lookup_filter_None. right. by intros v _.
Qed.

(** The projection never returns a [content] field. *)
Lemma project_no_content (d : doc) : project d !! "content" = None.
Proof. rewrite project_lookup. by case_decide as H; [destruct H|]. Qed.

Lemma project_chat_data session_id role message t :
  project (chat_data session_id role message t) = message_turn role message.
Proof.
  apply map_eq. intros k. rewrite project_lookup.
  unfold chat_data, message_turn. case_decide as Hk.
  - destruct Hk as [->| ->]; by simplify_map_eq.
  - rewrite !lookup_insert_ne by naive_solver. by rewrite lookup_empty.
Qed.

Lemma insert_by_timestamp_length d l :
  length (insert_by_timestamp d l) = S (length l).
Proof.
  induction l as [|d' r IH]; simpl; [done|].
  case_match; simpl; by rewrite ?IH.
Qed.

Lemma sort_by_timestamp_length l : length (sort_by_timestamp l) = length l.
Proof.
  induction l as [|d r IH]; simpl; [done|].
  by rewrite insert_by_timestamp_length, IH.
Qed.

Lemma find_history_length logs session_id :
  length (find_history logs session_id) =
  length (filter (λ d, d !! "session_id" = Some (VStr session_id)) logs).
Proof. unfold find_history. by rewrite length_fmap, sort_by_timestamp_length. Qed.

(** Every loaded turn lacks the key the context loop reads. *)
Lemma find_history_no_content logs session_id msg :
  msg ∈ find_history logs session_id → msg !! "content" = None.
Proof.
  unfold find_history. intros (d & -> & _)%list_elem_of_fmap.
  apply project_no_content.
Qed.

Lemma find_history_unknown logs session_id :
  unknown_session logs session_id → find_history logs session_id = [].
Proof.
  intros H. unfold find_history.
  replace (filter _ logs) with (@nil doc); [done|].
  symmetry. induction logs as [|d r IH]; [done|].
  rewrite filter_cons_False by (apply H; left).
  apply IH. intros d' Hd'. apply H. by right.
Qed.

(** After the user turn is stored, the query returns at least that turn. *)
Lemma find_history_after_store logs session_id role message t :
  find_history (logs ++ [chat_data session_id role message t]) session_id ≠ [].
Proof.
  intros Hnil. apply (f_equal length) in Hnil.
  rewrite find_history_length, filter_app, length_app in Hnil.
  rewrite filter_cons_True in Hnil by (unfold chat_data; by simplify_map_eq).
  simpl in Hnil. lia.
Qed.

Lemma find_history_first_turn logs session_id role message t :
  unknown_session logs session_id →
  find_history (logs ++ [chat_data session_id role message t]) session_id
  = [message_turn role message].
Proof.
  intros H. unfold find_history. rewrite filter_app.
  replace (filter _ logs) with (@nil doc).
  2:{ symmetry. induction logs as [|d r IH]; [done|].
      rewrite filter_cons_False by (apply H; left).
      apply IH. intros d' Hd'. apply H. by right. }
  rewrite filter_cons_True by (unfold chat_data; by simplify_map_eq).
  simpl. by rewrite project_chat_data.
Qed.

End History.

(** ** Outcomes of the store operations *)

Section Stores.

Variable cfg : Config.
Variable env : Env.

Lemma store_chat_ok session_id role message w :
  chats_insert_one env (chat_logs w)
    (chat_data session_id role message (utcnow env (ticks w))) = None →
  store_chat env session_id role message w =
  (inr (),
   add_chat_log (chat_data session_id role message (utcnow env (ticks w)))
     (tick w)).
Proof.
  intros H. unfold store_chat, now, chats_insert.
  rewrite bind_unfold. simpl. by rewrite H.
Qed.

(** [store_chat] has no handler: a failed write leaves it as an exception. *)
Lemma store_chat_fail session_id role message w e :
  chats_insert_one env (chat_logs w)
    (chat_data session_id role message (utcnow env (ticks w))) = Some e →
  store_chat env session_id role message w = (inl e, tick w).
Proof.
  intros H. unfold store_chat, now, chats_insert.
  rewrite bind_unfold. simpl. by rewrite H.
Qed.

Lemma send_contact_email_ok contact_info w :
  smtp_deliver env (contact_mail cfg env contact_info (utcnow env (ticks w))) = None →
  send_contact_email cfg env contact_info w =
  (inr (),
   add_mail (contact_mail cfg env contact_info (utcnow env (ticks w)))
     (tick (add_notify_call contact_info w))).
Proof.
  intros H. unfold send_contact_email, log_notify, try_except, now, smtp_send.
  rewrite !bind_unfold. simpl. by rewrite H.
Qed.

(** A transport failure is caught inside [send_contact_email]. *)
Lemma send_contact_email_fail contact_info w e :
  smtp_deliver env (contact_mail cfg env contact_info (utcnow env (ticks w))) = Some e →
  send_contact_email cfg env contact_info w =
  (inr (),
   add_stdout ("Error sending email: " +:+ str_exn e)
     (tick (add_notify_call contact_info w))).
Proof.
  intros H. unfold send_contact_email, log_notify, try_except, now, smtp_send.
  rewrite !bind_unfold. simpl. by rewrite H.
Qed.

Lemma send_contact_email_never_raises contact_info :
  never_raises (send_contact_email cfg env contact_info).
Proof.
  intros w.
  destruct (smtp_deliver env (contact_mail cfg env contact_info (utcnow env (ticks w))))
    as [e|] eqn:H.
  - rewrite (send_contact_email_fail _ _ _ H). eauto.
  - rewrite (send_contact_email_ok _ _ H). eauto.
Qed.

(** [store_lead] has no handler around the write, and the write comes
    first: when it fails, the notification is never reached. *)
Lemma store_lead_write_fail contact_info w e :
  leads_insert_one env (leads w)
    (lead_data contact_info (utcnow env (ticks w))) = Some e →
  store_lead cfg env contact_info w = (inl e, tick w).
Proof.
  intros H. unfold store_lead, now, leads_insert.
  rewrite !bind_unfold. simpl. by rewrite H.
Qed.

Lemma store_lead_write_ok contact_info w :
  leads_insert_one env (leads w)
    (lead_data contact_info (utcnow env (ticks w))) = None →
  store_lead cfg env contact_info w =
  send_contact_email cfg env contact_info
    (add_lead (lead_data contact_info (utcnow env (ticks w))) (tick w)).
Proof.
  intros H. unfold store_lead, now, leads_insert.
  rewrite !bind_unfold. simpl. by rewrite H.
Qed.

End Stores.

(** ** Context assembly and completion: the claims *)

Section ContextClaims.

Variable cfg : Config.
Variable env : Env.

(** The context loop fails on the first turn of any non-empty history
    returned by the history query. *)
Lemma full_prompt_loaded_history
    (prompt : string) (logs : list doc) (session_id : string) :
  0 ≤ MAX_CHAT_HISTORY cfg →
  find_history logs session_id ≠ [] →
  ∃ key,
    (key = "role" ∨ key = "content")
    ∧ full_prompt cfg env prompt (find_history logs session_id)
      = inl (KeyError key).
Proof.
  intros Hmax Hne.
  pose proof (slice_from_nonempty _ _ Hmax Hne) as Hslice.
  destruct (slice_from (- MAX_CHAT_HISTORY cfg) (find_history logs session_id))
    as [|msg rest] eqn:Hs; [done|].
  assert (msg !! "content" = None) as Hmsg.
  { apply (find_history_no_content logs session_id).
    apply (slice_from_elem (- MAX_CHAT_HISTORY cfg)). rewrite Hs. by left. }
  destruct (append_turns_no_content env msg rest
              (SYSTEM_PROMPT +:+ nl +:+ nl +:+ "Chat history:" +:+ nl) Hmsg)
    as (key & Hkey & Happ).
  exists key. split; [done|]. unfold full_prompt. by rewrite Hs, Happ.
Qed.

(** C1. With a non-negative history cap, every non-empty history returned
    by the history query makes [generate_response] return the fixed
    fallback string, whatever the model service would answer: the loaded
    turns have the keys [role] and [message] only, the context loop reads
    [msg['content']], the resulting [KeyError] is caught by the catch-all
    handler and printed, and the model is never called. *)
Theorem loaded_history_yields_fallback
    (prompt : string) (logs : list doc) (session_id : string) (w : World) :
  0 ≤ MAX_CHAT_HISTORY cfg →
  find_history logs session_id ≠ [] →
  ∃ key,
    (key = "role" ∨ key = "content")
    ∧ full_prompt cfg env prompt (find_history logs session_id)
      = inl (KeyError key)
    ∧ generate_response cfg env prompt (find_history logs session_id) w
      = (inr FALLBACK,
         add_stdout ("Error generating response: " +:+ str_exn (KeyError key)) w)
    ∧ model_calls
        (generate_response cfg env prompt (find_history logs session_id) w).2
      = model_calls w.
Proof.
  intros Hmax Hne.
  destruct (full_prompt_loaded_history prompt logs session_id Hmax Hne)
    as (key & Hkey & Hfull).
  exists key. split; [done|]. split; [done|].
  by rewrite (generate_response_keyerror _ _ _ _ _ _ Hfull).
Qed.

(** C9. [generate_response] never lets an exception escape, and when the
    model call fails, for whatever reason, it returns exactly the fixed
    fallback string (and prints the failure). *)
Theorem model_failure_yields_fallback
    (prompt : string) (chat_history : list doc) :
  never_raises (generate_response cfg env prompt chat_history)
  ∧ ∀ p e w,
      full_prompt cfg env prompt chat_history = inr p →
      generate_content env p = inl e →
      generate_response cfg env prompt chat_history w
      = (inr FALLBACK,
         add_stdout ("Error generating response: " +:+ str_exn e)
           (add_model_call p w)).
Proof.
  split; [apply generate_response_never_raises|].
  intros p e w. apply generate_response_model_error.
Qed.

End ContextClaims.

Lemma loaded_history_yields_fallback_witness :
  ∃ key,
    (key = "role" ∨ key = "content")
    ∧ full_prompt Demo.cfg Demo.env "Hi"
        (find_history [chat_data "s1" "user" "Hi" 0] "s1")
      = inl (KeyError key)
    ∧ generate_response Demo.cfg Demo.env "Hi"
        (find_history [chat_data "s1" "user" "Hi" 0] "s1") empty_world
      = (inr FALLBACK,
         add_stdout ("Error generating response: " +:+ str_exn (KeyError key))
           empty_world)
    ∧ model_calls
        (generate_response Demo.cfg Demo.env "Hi"
           (find_history [chat_data "s1" "user" "Hi" 0] "s1") empty_world).2
      = model_calls empty_world.
Proof.
  apply (loaded_history_yields_fallback Demo.cfg Demo.env "Hi"
           [chat_data "s1" "user" "Hi" 0] "s1" empty_world).
  - simpl. lia.
  - vm_compute. discriminate.
Defined.

Lemma model_failure_yields_fallback_witness :
  generate_response Demo.cfg Demo.env_model_down "Hi" [] empty_world
  = (inr FALLBACK,
     add_stdout ("Error generating response: " +:+ str_exn Demo.down)
       (add_model_call (prompt_of Demo.env_model_down "Hi" []) empty_world)).
Proof.
  apply (proj2 (model_failure_yields_fallback Demo.cfg Demo.env_model_down "Hi" [])).
  - vm_compute. reflexivity.
  - reflexivity.
Defined.

(** C3. Evaluation with [MAX_CHAT_HISTORY = 0] on a one-turn history: the
    slice [chat_history[-0:]] is the whole history, so the prompt sent to
    the model carries the history line and is not the prompt made of the
    preamble and the current message only. *)
Theorem zero_cap_prompt_has_history :
  full_prompt Demo.cfg_zero Demo.env_echo "Hi" [content_turn "user" "hello"]
  = inr (prompt_of Demo.env_echo "Hi" [content_turn "user" "hello"])
  ∧ generate_response Demo.cfg_zero Demo.env_echo "Hi"
      [content_turn "user" "hello"] empty_world
    = (inr (prompt_of Demo.env_echo "Hi" [content_turn "user" "hello"]),
       add_model_call
         (prompt_of Demo.env_echo "Hi" [content_turn "user" "hello"])
         empty_world)
  ∧ contains ("user: hello" +:+ nl)
      (prompt_of Demo.env_echo "Hi" [content_turn "user" "hello"]) = true
  ∧ prompt_of Demo.env_echo "Hi" [content_turn "user" "hello"]
    ≠ prompt_of Demo.env_echo "Hi" [].
Proof.
  split; [by vm_compute|]. split; [by vm_compute|]. split; [by vm_compute|].
  vm_compute. discriminate.
Qed.

(** C10. Evaluation with [MAX_CHAT_HISTORY = 0] on a two-turn history, which
    is strictly longer than the cap: the loop runs over both turns instead
    of the last zero, and the prompt carries both lines. *)
Theorem zero_cap_window_is_whole_history :
  slice_from (- MAX_CHAT_HISTORY Demo.cfg_zero)
    [content_turn "user" "one"; content_turn "assistant" "two"]
  = [content_turn "user" "one"; content_turn "assistant" "two"]
  ∧ last_n (Z.to_nat (MAX_CHAT_HISTORY Demo.cfg_zero))
      [content_turn "user" "one"; content_turn "assistant" "two"]
    = []
  ∧ full_prompt Demo.cfg_zero Demo.env_echo "Hi"
      [content_turn "user" "one"; content_turn "assistant" "two"]
    = inr (prompt_of Demo.env_echo "Hi"
             [content_turn "user" "one"; content_turn "assistant" "two"])
  ∧ contains ("user: one" +:+ nl +:+ "assistant: two" +:+ nl)
      (prompt_of Demo.env_echo "Hi"
         [content_turn "user" "one"; content_turn "assistant" "two"]) = true.
Proof. repeat split; by vm_compute. Qed.

(** ** The history the handler loads *)

Section HistoryClaims.

Variable cfg : Config.
Variable env : Env.

Lemma load_history_unknown session_id w :
  unknown_session (chat_logs w) session_id →
  load_history session_id w = (inr [], w).
Proof. intros H. unfold load_history. by rewrite find_history_unknown. Qed.

(** The handler up to the history query, when the first write succeeds. *)
Lemma chat_after_store data w :
  let session_id := default "default_session" (req_session_id data) in
  let message := default EmptyString (req_message data) in
  let turn := chat_data session_id "user" message (utcnow env (ticks w)) in
  chats_insert_one env (chat_logs w) turn = None →
  chat cfg env data w =
  reply_with_history cfg env session_id message
    (find_history (chat_logs w ++ [turn]) session_id)
    (add_chat_log turn (tick w)).
Proof.
  intros session_id message turn H. unfold chat.
  fold session_id message.
  rewrite (bind_inr _ _ _ _ _ (store_chat_ok env session_id "user" message w H)).
  reflexivity.
Qed.

(** C4, as the code has it. For a session unknown to the store the
    history query returns the empty sequence, without an exception and
    without side effects. The handler, however, stores the user turn
    before it queries the store, so for the first message of such a
    session the history handed to the context builder is the one-turn
    sequence holding that very message. *)
Theorem first_message_history (data : Request) (w : World) :
  let session_id := default "default_session" (req_session_id data) in
  let message := default EmptyString (req_message data) in
  let turn := chat_data session_id "user" message (utcnow env (ticks w)) in
  unknown_session (chat_logs w) session_id →
  load_history session_id w = (inr [], w)
  ∧ (chats_insert_one env (chat_logs w) turn = None →
     load_history session_id (add_chat_log turn (tick w))
     = (inr [message_turn "user" message], add_chat_log turn (tick w))
     ∧ chat cfg env data w
       = reply_with_history cfg env session_id message
           [message_turn "user" message] (add_chat_log turn (tick w))).
Proof.
  intros session_id message turn Hunknown.
  split; [by apply load_history_unknown|].
  intros Hok.
  assert (find_history (chat_logs w ++ [turn]) session_id
          = [message_turn "user" message]) as Hfind.
  { by apply find_history_first_turn. }
  split.
  - unfold load_history.
    change (chat_logs (add_chat_log turn (tick w))) with (chat_logs w ++ [turn]).
    by rewrite Hfind.
  - etrans; [by apply chat_after_store|].
    fold session_id message turn. by rewrite Hfind.
Qed.

(** In the handler the loaded history is never empty, so with a
    non-negative cap the reply stored and examined by the lead detector
    is always the fallback string, and the model is not called. *)
Lemma chat_generates_fallback data w :
  let session_id := default "default_session" (req_session_id data) in
  let message := default EmptyString (req_message data) in
  let turn := chat_data session_id "user" message (utcnow env (ticks w)) in
  0 ≤ MAX_CHAT_HISTORY cfg →
  chats_insert_one env (chat_logs w) turn = None →
  ∃ key,
    chat cfg env data w =
    (store_chat env session_id "assistant" FALLBACK;;
     capture_lead cfg env session_id message FALLBACK)
      (add_stdout ("Error generating response: " +:+ str_exn (KeyError key))
         (add_chat_log turn (tick w))).
Proof.
  intros session_id message turn Hmax Hok.
  destruct (full_prompt_loaded_history cfg env message
              (chat_logs w ++ [turn]) session_id Hmax)
    as (key & _ & Hfull).
  { apply find_history_after_store. }
  pose proof (generate_response_keyerror cfg env _ _ _
                (add_chat_log turn (tick w)) Hfull) as Hgen.
  exists key. etrans; [by apply chat_after_store|].
  fold session_id message turn. unfold reply_with_history.
  by rewrite (bind_inr _ _ _ _ _ Hgen).
Qed.

End HistoryClaims.

Lemma first_message_history_witness :
  load_history "s1" empty_world = (inr [], empty_world)
  ∧ chat Demo.cfg Demo.env Demo.first_request empty_world
    = reply_with_history Demo.cfg Demo.env "s1" "Hi" [message_turn "user" "Hi"]
        (add_chat_log (chat_data "s1" "user" "Hi" 0) (tick empty_world)).
Proof.
  destruct (first_message_history Demo.cfg Demo.env Demo.first_request
              empty_world) as [Hload Hchat].
  - intros d Hd. simpl in Hd. by apply elem_of_nil in Hd.
  - split; [exact Hload|]. apply Hchat. reflexivity.
Defined.

(** C4, refuted as stated: on an empty store, the first message ["Hi"] of
    session ["s1"] is written first, and the history the handler loads next
    is not empty. *)
Lemma first_message_history_not_empty :
  store_chat Demo.env "s1" "user" "Hi" empty_world
  = (inr (), add_chat_log (chat_data "s1" "user" "Hi" 0) (tick empty_world))
  ∧ load_history "s1"
      (add_chat_log (chat_data "s1" "user" "Hi" 0) (tick empty_world))
    = (inr [message_turn "user" "Hi"],
       add_chat_log (chat_data "s1" "user" "Hi" 0) (tick empty_world))
  ∧ [message_turn "user" "Hi"] ≠ []
  ∧ chat Demo.cfg Demo.env Demo.first_request empty_world
    ≠ reply_with_history Demo.cfg Demo.env "s1" "Hi" []
        (add_chat_log (chat_data "s1" "user" "Hi" 0) (tick empty_world)).
Proof.
  split; [by vm_compute|]. split; [by vm_compute|]. split; [done|].
  vm_compute. discriminate.
Qed.

(** ** Lead detection and extraction: the claims *)

(** C6. The extractor computes what the specification describes: the
    message is split into lines; per line the markers [name:], [email:],
    [phone:] are looked for in the lower-cased line in that order and the
    first one found selects the field, which receives the trimmed text after
    the line's first colon; the extractor never raises. On
    ["My name: Jane Doe\nemail: jane@x.com"] the result is
    [{name: "Jane Doe", email: "jane@x.com"}], without a [phone] key. *)
Theorem extractor_follows_markers :
  (∀ message, extract_contact_info message = inr (extraction_spec message))
  ∧ extract_contact_info Demo.jane
    = inr (<["name" := VStr "Jane Doe"]> (<["email" := VStr "jane@x.com"]> ∅))
  ∧ extraction_spec Demo.jane !! "phone" = None.
Proof.
  split; [apply extract_contact_info_total|].
  split; by vm_compute.
Qed.

Section LeadClaims.

Variable cfg : Config.
Variable env : Env.

(** The guard of line 149, in words. *)
Lemma guard_spec (message response : string) :
  contact_requested cfg response && mentions_keyword message = true
  ↔ contains (lower (CONTACT_PROMPT cfg)) (lower response) = true
    ∧ ∃ keyword, keyword ∈ ["name"; "email"; "phone"]
                 ∧ contains keyword (lower message) = true.
Proof.
  unfold contact_requested, mentions_keyword. simpl.
  rewrite andb_true_iff, !orb_true_iff. split.
  - intros [Ht Hk]. split; [done|].
    destruct Hk as [H|[H|[H|H]]]; [| | |done].
    + exists "name". split; [set_solver|done].
    + exists "email". split; [set_solver|done].
    + exists "phone". split; [set_solver|done].
  - intros [Ht (keyword & Hin & Hk)]. split; [done|].
    repeat (apply elem_of_cons in Hin as [->|Hin]; [by auto|]).
    by apply elem_of_nil in Hin.
Qed.

Lemma capture_lead_skip session_id message response w :
  contact_requested cfg response && mentions_keyword message = false →
  capture_lead cfg env session_id message response w = (inr response, w).
Proof. intros H. unfold capture_lead. by rewrite H. Qed.

Lemma capture_lead_attempt session_id message response w :
  contact_requested cfg response && mentions_keyword message = true →
  capture_lead cfg env session_id message response w =
  (if bool_decide (extraction_spec message ≠ ∅) then
     store_lead cfg env (tag_lead session_id (extraction_spec message));;
     mret (response +:+ THANKS)
   else mret response) (add_extract_call message w).
Proof.
  intros H. unfold capture_lead. rewrite H.
  unfold log_extract, lift. rewrite !bind_unfold.
  by rewrite extract_contact_info_total.
Qed.

Lemma capture_lead_extract_calls session_id message response w :
  extract_calls (capture_lead cfg env session_id message response w).2 =
  if contact_requested cfg response && mentions_keyword message
  then extract_calls w ++ [message] else extract_calls w.
Proof.
  destruct (contact_requested cfg response && mentions_keyword message) eqn:H.
  - rewrite capture_lead_attempt by done. case_bool_decide; [|done].
    assert (keeps extract_calls
              (store_lead cfg env
                 (tag_lead session_id (extraction_spec message));;
               mret (M := M) (response +:+ THANKS))) as Hk.
    { apply keeps_bind; [apply store_lead_keeps_extract_calls|].
      intros []. apply keeps_ret. }
    by rewrite Hk.
  - by rewrite capture_lead_skip.
Qed.

(** C5. Extraction is attempted exactly when the configured trigger phrase
    occurs, case-insensitively, in the generated reply and the user
    message mentions, case-insensitively, one of [name], [email], [phone].
    Without the trigger phrase in the reply the lead step does nothing,
    whatever the message: no extraction, no effect, the reply unchanged. *)
Theorem extraction_needs_trigger_and_keyword
    (session_id message response : string) (w : World) :
  (extract_calls (capture_lead cfg env session_id message response w).2
     = extract_calls w ++ [message]
   ↔ contains (lower (CONTACT_PROMPT cfg)) (lower response) = true
     ∧ ∃ keyword, keyword ∈ ["name"; "email"; "phone"]
                  ∧ contains keyword (lower message) = true)
  ∧ (contains (lower (CONTACT_PROMPT cfg)) (lower response) = false →
     capture_lead cfg env session_id message response w = (inr response, w)).
Proof.
  split.
  - rewrite <- guard_spec, capture_lead_extract_calls.
    destruct (contact_requested cfg response && mentions_keyword message);
      [done|].
    split; [|done]. intros H%(f_equal length).
    rewrite length_app in H. simpl in H. lia.
  - intros H. apply capture_lead_skip. unfold contact_requested. by rewrite H.
Qed.

Lemma extraction_spec_no_markers (message : string) :
  (∀ m, m ∈ ["name:"; "email:"; "phone:"] →
        contains m (lower message) = false) →
  extraction_spec message = ∅.
Proof.
  intros H. unfold extraction_spec.
  assert (∀ line, line ∈ split (ascii_of_nat 10) message →
                  line_assignment line = None) as Hlines.
  { intros line Hline. apply line_assignment_none. intros m Hm.
    destruct (contains m (lower line)) eqn:Hc; [|done].
    by rewrite <- (H m Hm), (contains_line m message line Hline Hc). }
  revert Hlines. generalize (split (ascii_of_nat 10) message) (∅ : doc).
  intros lines. induction lines as [|line rest IH]; intros info Hl; [done|].
  simpl. rewrite Hl by by left. apply IH. intros l Hin. apply Hl. by right.
Qed.

(** Without markers in the message the lead step returns the reply as it
    is and at most logs the extraction call. *)
Lemma capture_lead_no_markers session_id message response w :
  extraction_spec message = ∅ →
  capture_lead cfg env session_id message response w
  = (inr response,
     if contact_requested cfg response && mentions_keyword message
     then add_extract_call message w else w).
Proof.
  intros Hempty.
  destruct (contact_requested cfg response && mentions_keyword message) eqn:H.
  - rewrite capture_lead_attempt by done. rewrite Hempty.
    by rewrite bool_decide_false by (by intros []).
  - by apply capture_lead_skip.
Qed.

Lemma chat_keeps_without_markers {X} (proj : World → X) data :
  (∀ d w, proj (add_chat_log d w) = proj w) →
  (∀ w, proj (tick w) = proj w) →
  (∀ line w, proj (add_stdout line w) = proj w) →
  (∀ p w, proj (add_model_call p w) = proj w) →
  (∀ m w, proj (add_extract_call m w) = proj w) →
  extraction_spec (default EmptyString (req_message data)) = ∅ →
  keeps proj (chat cfg env data).
Proof.
  intros Hlog Htick Hout Hcall Hext Hempty. unfold chat, reply_with_history.
  apply keeps_bind; [by apply store_chat_keeps|]. intros _.
  apply keeps_bind; [apply load_history_keeps|]. intros chat_history.
  apply keeps_bind; [by apply generate_response_keeps|]. intros response.
  apply keeps_bind; [by apply store_chat_keeps|]. intros _.
  intros w. rewrite capture_lead_no_markers by done. simpl.
  by case_match.
Qed.

(** C7. A message that contains none of the markers [name:], [email:],
    [phone:] yields the empty extraction result; the lead step then
    returns the reply unchanged, and neither it nor the whole handler
    persists a lead record or sends a notification, also when the reply
    carries the trigger phrase and the message passes the keyword check. *)
Theorem no_markers_no_lead (session : option string) (message : string) :
  (∀ m, m ∈ ["name:"; "email:"; "phone:"] →
        contains m (lower message) = false) →
  extract_contact_info message = inr ∅
  ∧ (∀ session_id response w,
       (capture_lead cfg env session_id message response w).1 = inr response
       ∧ keeps_leads w (capture_lead cfg env session_id message response w).2)
  ∧ (∀ w,
       keeps_leads w
         (chat cfg env
            {| req_session_id := session; req_message := Some message |} w).2).
Proof.
  intros H. pose proof (extraction_spec_no_markers message H) as Hempty.
  split; [by rewrite extract_contact_info_total, Hempty|]. split.
  - intros session_id response w.
    rewrite capture_lead_no_markers by done. simpl.
    split; [done|]. by case_match.
  - intros w. repeat split;
      by apply (chat_keeps_without_markers _
                  {| req_session_id := session; req_message := Some message |}).
Qed.

End LeadClaims.

Lemma extraction_needs_trigger_and_keyword_witness :
  extract_calls
    (capture_lead Demo.cfg Demo.env "s1" Demo.bob Demo.reply empty_world).2
  = extract_calls empty_world ++ [Demo.bob]
  ∧ capture_lead Demo.cfg Demo.env "s1" Demo.bob "How can I help?" empty_world
    = (inr "How can I help?", empty_world).
Proof.
  split.
  - apply (extraction_needs_trigger_and_keyword Demo.cfg Demo.env "s1" Demo.bob
             Demo.reply empty_world).
    split; [reflexivity|]. exists "name". split; [by left | reflexivity].
  - apply (extraction_needs_trigger_and_keyword Demo.cfg Demo.env "s1" Demo.bob
             "How can I help?" empty_world).
    reflexivity.
Defined.

Lemma no_markers_no_lead_witness :
  extract_contact_info "Please call me, my name is Bob" = inr ∅
  ∧ (capture_lead Demo.cfg Demo.env "s1" "Please call me, my name is Bob"
       Demo.reply empty_world).1 = inr Demo.reply
  ∧ keeps_leads empty_world
      (chat Demo.cfg Demo.env
         {| req_session_id := Some "s1";
            req_message := Some "Please call me, my name is Bob" |}
         empty_world).2.
Proof.
  destruct (no_markers_no_lead Demo.cfg Demo.env (Some "s1")
              "Please call me, my name is Bob") as (Hex & Hstep & Hchat).
  - intros m Hm.
    repeat (apply elem_of_cons in Hm as [->|Hm]; [reflexivity|]).
    by apply elem_of_nil in Hm.
  - split; [exact Hex|]. split; [apply Hstep | apply Hchat].
Defined.

Section LeadRecord.

Variable cfg : Config.
Variable env : Env.

(** The keys the handler adds are not extraction fields. *)
Lemma field_key_fresh (k : string) :
  k ∈ ["name"; "email"; "phone"] →
  "session_id" ≠ k ∧ "interest" ≠ k ∧ "timestamp" ≠ k ∧ "followed_up" ≠ k.
Proof.
  intros Hk.
  repeat (apply elem_of_cons in Hk as [->|Hk]; [done|]).
  by apply elem_of_nil in Hk.
Qed.

Lemma tag_lead_lookup session_id (info : doc) (k : string) :
  k ∈ ["name"; "email"; "phone"] →
  tag_lead session_id info !! k = info !! k.
Proof.
  intros (? & ? & _)%field_key_fresh. unfold tag_lead.
  by rewrite !lookup_insert_ne.
Qed.

(** Tagging and time-stamping keep the extracted fields. *)
Lemma extraction_carried session_id message t :
  extraction_spec message ⊆ tag_lead session_id (extraction_spec message)
  ∧ carries_lead session_id (extraction_spec message)
      (lead_data (tag_lead session_id (extraction_spec message)) t).
Proof.
  assert (∀ k v, extraction_spec message !! k = Some v →
                 k ∈ ["name"; "email"; "phone"]) as Hkeys.
  { intros k v Hk. apply (extraction_keys message). by rewrite Hk. }
  split; [|repeat split].
  - apply map_subseteq_spec. intros k v Hk.
    by rewrite tag_lead_lookup by by eapply Hkeys.
  - unfold lead_data, tag_lead. by simplify_map_eq.
  - unfold lead_data, tag_lead. by simplify_map_eq.
  - unfold lead_data. by simplify_map_eq.
  - apply map_subseteq_spec. intros k v Hk. unfold lead_data.
    pose proof (Hkeys _ _ Hk) as Hin.
    destruct (field_key_fresh _ Hin) as (_ & _ & ? & ?).
    rewrite !lookup_insert_ne by done.
    by rewrite tag_lead_lookup.
Qed.

Lemma tag_lead_no_followed_up session_id message :
  tag_lead session_id (extraction_spec message) !! "followed_up" = None.
Proof.
  unfold tag_lead. rewrite !lookup_insert_ne by done.
  destruct (extraction_spec message !! "followed_up") as [v|] eqn:H; [|done].
  assert ("followed_up" ∈ ["name"; "email"; "phone"]) as Hin.
  { apply (extraction_keys message). by rewrite H. }
  by destruct (field_key_fresh _ Hin) as (_ & _ & _ & ?).
Qed.

(** C8, as the code has it. On a non-empty extraction whose lead write
    succeeds, the record appended to the lead store carries the request's
    session id, the interest label ["From chat"], [followed_up = false]
    and the extracted fields, and the reply returned is the generated
    reply followed by the fixed acknowledgement. The notification is
    invoked with the extracted fields, the session id and the interest
    label, but without a [followed_up] flag, and the mail it sends is
    composed from that record. *)
Theorem lead_record_fields
    (session_id message response : string) (info : doc) (w : World) :
  let lead := tag_lead session_id info in
  let t := utcnow env (ticks w) in
  contains (lower (CONTACT_PROMPT cfg)) (lower response) = true →
  mentions_keyword message = true →
  extract_contact_info message = inr info →
  info ≠ ∅ →
  leads_insert_one env (leads w) (lead_data lead t) = None →
  ∃ w',
    capture_lead cfg env session_id message response w
    = (inr (response +:+ THANKS), w')
    ∧ leads w' = leads w ++ [lead_data lead t]
    ∧ carries_lead session_id info (lead_data lead t)
    ∧ notify_calls w' = notify_calls w ++ [lead]
    ∧ lead !! "session_id" = Some (VStr session_id)
    ∧ lead !! "interest" = Some (VStr "From chat")
    ∧ info ⊆ lead
    ∧ lead !! "followed_up" = None
    ∧ (smtp_deliver env (contact_mail cfg env lead (utcnow env (S (ticks w))))
       = None →
       outbox w'
       = outbox w ++ [contact_mail cfg env lead (utcnow env (S (ticks w)))]).
Proof.
  intros lead t Htrigger Hkeyword Hextract Hne Hwrite.
  rewrite extract_contact_info_total in Hextract.
  injection Hextract as Hinfo.
  assert (contact_requested cfg response && mentions_keyword message = true)
    as Hguard.
  { unfold contact_requested. by rewrite Htrigger, Hkeyword. }
  rewrite (capture_lead_attempt cfg env _ _ _ _ Hguard), Hinfo.
  rewrite bool_decide_true by done. fold lead.
  rewrite bind_unfold.
  rewrite (store_lead_write_ok cfg env lead (add_extract_call message w) Hwrite).
  fold t.
  destruct (extraction_carried session_id message t) as [Hsub Hcarry].
  pose proof (tag_lead_no_followed_up session_id message) as Hflag.
  rewrite Hinfo in Hsub, Hcarry, Hflag. fold lead in Hsub, Hcarry, Hflag.
  destruct (smtp_deliver env
              (contact_mail cfg env lead (utcnow env (S (ticks w)))))
    as [e|] eqn:Hsmtp.
  - rewrite (send_contact_email_fail cfg env lead _ e) by exact Hsmtp.
    eexists. split; [reflexivity|]. simpl.
    repeat split; try done; try apply Hcarry;
      unfold lead, tag_lead; by simplify_map_eq.
  - rewrite (send_contact_email_ok cfg env lead) by exact Hsmtp.
    eexists. split; [reflexivity|]. simpl.
    repeat split; try done; try apply Hcarry;
      unfold lead, tag_lead; by simplify_map_eq.
Qed.

(** C2, as the code has it. Neither [store_chat] nor [store_lead] guards
    its write: a failed history-store write makes the handler raise, so
    that no reply is returned and nothing is printed, and a failed
    lead-store write makes the lead step raise before the notification is
    attempted. A notification failure alone is caught and printed: the
    lead record stays in the store and the reply, with the
    acknowledgement, is returned. *)
Theorem store_failures_escape_notification_failures_do_not :
  (∀ data w e,
     chats_insert_one env (chat_logs w)
       (chat_data (default "default_session" (req_session_id data)) "user"
          (default EmptyString (req_message data)) (utcnow env (ticks w)))
     = Some e →
     chat cfg env data w = (inl e, tick w))
  ∧ (∀ session_id message chat_history w response w1 e,
       generate_response cfg env message chat_history w = (inr response, w1) →
       chats_insert_one env (chat_logs w1)
         (chat_data session_id "assistant" response (utcnow env (ticks w1)))
       = Some e →
       reply_with_history cfg env session_id message chat_history w
       = (inl e, tick w1))
  ∧ (∀ session_id message response w e,
       contact_requested cfg response && mentions_keyword message = true →
       extraction_spec message ≠ ∅ →
       leads_insert_one env (leads w)
         (lead_data (tag_lead session_id (extraction_spec message))
            (utcnow env (ticks w)))
       = Some e →
       capture_lead cfg env session_id message response w
       = (inl e, tick (add_extract_call message w)))
  ∧ (∀ session_id message response w e,
       contact_requested cfg response && mentions_keyword message = true →
       extraction_spec message ≠ ∅ →
       leads_insert_one env (leads w)
         (lead_data (tag_lead session_id (extraction_spec message))
            (utcnow env (ticks w)))
       = None →
       smtp_deliver env
         (contact_mail cfg env (tag_lead session_id (extraction_spec message))
            (utcnow env (S (ticks w))))
       = Some e →
       ∃ w',
         capture_lead cfg env session_id message response w
         = (inr (response +:+ THANKS), w')
         ∧ leads w'
           = leads w
             ++ [lead_data (tag_lead session_id (extraction_spec message))
                   (utcnow env (ticks w))]
         ∧ outbox w' = outbox w
         ∧ stdout w'
           = stdout w ++ ["Error sending email: " +:+ str_exn e]).
Proof.
  split; [|split; [|split]].
  - intros data w e H. unfold chat.
    by rewrite (bind_inl _ _ _ _ _ (store_chat_fail env _ _ _ _ _ H)).
  - intros session_id message chat_history w response w1 e Hgen H.
    unfold reply_with_history. rewrite (bind_inr _ _ _ _ _ Hgen).
    by rewrite (bind_inl _ _ _ _ _ (store_chat_fail env _ _ _ _ _ H)).
  - intros session_id message response w e Hguard Hne H.
    rewrite (capture_lead_attempt cfg env _ _ _ _ Hguard).
    rewrite bool_decide_true by done.
    by rewrite (bind_inl _ _ _ _ _
                  (store_lead_write_fail cfg env _
                     (add_extract_call message w) e H)).
  - intros session_id message response w e Hguard Hne Hwrite Hsmtp.
    rewrite (capture_lead_attempt cfg env _ _ _ _ Hguard).
    rewrite bool_decide_true by done. rewrite bind_unfold.
    rewrite (store_lead_write_ok cfg env _ (add_extract_call message w) Hwrite).
    rewrite (send_contact_email_fail cfg env _ _ e) by exact Hsmtp.
    eexists. split; [reflexivity|]. by simpl.
Qed.

End LeadRecord.

Lemma lead_record_fields_witness :
  ∃ w',
    capture_lead Demo.cfg Demo.env "s1" Demo.bob Demo.reply empty_world
    = (inr (Demo.reply +:+ THANKS), w')
    ∧ leads w' = [lead_data (tag_lead "s1" Demo.bob_info) 0]
    ∧ carries_lead "s1" Demo.bob_info (lead_data (tag_lead "s1" Demo.bob_info) 0)
    ∧ notify_calls w' = [tag_lead "s1" Demo.bob_info].
Proof.
  destruct (lead_record_fields Demo.cfg Demo.env "s1" Demo.bob Demo.reply
              Demo.bob_info empty_world)
    as (w' & Hrun & Hleads & Hcarry & Hnotify & _).
  - reflexivity.
  - reflexivity.
  - vm_compute. reflexivity.
  - apply insert_non_empty.
  - reflexivity.
  - exists w'. split; [exact Hrun|]. split; [exact Hleads|].
    split; [exact Hcarry | exact Hnotify].
Defined.

(** C8, refuted as stated: in a run of the handler that captures the lead
    of session ["s1"], the record appended to the lead store has
    [followed_up = false], but the record the notification is invoked with
    has no [followed_up] key, and the mail sent names neither the session
    nor that flag. *)
Lemma notified_record_lacks_followed_up :
  ∃ w',
    chat Demo.cfg_retry Demo.env Demo.bob_request empty_world
    = (inr (FALLBACK +:+ THANKS), w')
    ∧ leads w' = [lead_data (tag_lead "s1" Demo.bob_info) 2]
    ∧ notify_calls w' = [tag_lead "s1" Demo.bob_info]
    ∧ tag_lead "s1" Demo.bob_info !! "followed_up" = None
    ∧ ¬ carries_lead "s1" Demo.bob_info (tag_lead "s1" Demo.bob_info)
    ∧ payload <$> outbox w'
      = ["New contact request:" +:+ nl +:+ nl
         +:+ "Name: Bob" +:+ nl
         +:+ "Email: bob@x.com" +:+ nl
         +:+ "Phone: Not provided" +:+ nl
         +:+ "Interest: From chat" +:+ nl +:+ nl
         +:+ "Timestamp: 2024-01-01 00:00:00"].
Proof.
  eexists. split; [by vm_compute|]. simpl.
  split; [by vm_compute|]. split; [by vm_compute|]. split; [by vm_compute|].
  split; [|by vm_compute].
  intros (_ & _ & Hflag & _). vm_compute in Hflag. discriminate.
Qed.

Lemma store_failures_escape_notification_failures_do_not_witness :
  chat Demo.cfg Demo.env_chats_down Demo.first_request empty_world
  = (inl Demo.down, tick empty_world)
  ∧ reply_with_history Demo.cfg Demo.env_assistant_write_down "s1" "Hi" []
      empty_world
    = (inl Demo.down,
       tick (add_model_call (prompt_of Demo.env "Hi" []) empty_world))
  ∧ capture_lead Demo.cfg Demo.env_leads_down "s1" Demo.bob Demo.reply
      empty_world
    = (inl Demo.down, tick (add_extract_call Demo.bob empty_world))
  ∧ ∃ w',
      capture_lead Demo.cfg Demo.env_smtp_down "s1" Demo.bob Demo.reply
        empty_world
      = (inr (Demo.reply +:+ THANKS), w')
      ∧ leads w'
        = leads empty_world
          ++ [lead_data (tag_lead "s1" (extraction_spec Demo.bob))
                (utcnow Demo.env_smtp_down (ticks empty_world))]
      ∧ outbox w' = outbox empty_world
      ∧ stdout w'
        = stdout empty_world
          ++ ["Error sending email: " +:+ str_exn Demo.down].
Proof.
  split; [|split; [|split]].
  - apply (proj1 (store_failures_escape_notification_failures_do_not
                    Demo.cfg Demo.env_chats_down)).
    reflexivity.
  - apply (proj1 (proj2 (store_failures_escape_notification_failures_do_not
                           Demo.cfg Demo.env_assistant_write_down))
             "s1" "Hi" [] empty_world Demo.reply).
    + vm_compute. reflexivity.
    + vm_compute. reflexivity.
  - apply (proj1 (proj2 (proj2
             (store_failures_escape_notification_failures_do_not
                Demo.cfg Demo.env_leads_down)))).
    + reflexivity.
    + vm_compute. discriminate.
    + reflexivity.
  - apply (proj2 (proj2 (proj2
             (store_failures_escape_notification_failures_do_not
                Demo.cfg Demo.env_smtp_down)))).
    + reflexivity.
    + vm_compute. discriminate.
    + reflexivity.
    + reflexivity.
Defined.

(** C2, refuted as stated: with the history store down, the handler raises
    on its first write; no reply is returned and nothing is printed. With
    the lead store down, a request whose lead would be captured raises as
    well, after both turns were stored, and no notification is attempted. *)
Lemma store_failure_aborts_request :
  chat Demo.cfg Demo.env_chats_down Demo.first_request empty_world
  = (inl Demo.down, tick empty_world)
  ∧ ¬ never_raises (chat Demo.cfg Demo.env_chats_down Demo.first_request)
  ∧ (chat Demo.cfg_retry Demo.env_leads_down Demo.bob_request empty_world).1
    = inl Demo.down
  ∧ notify_calls
      (chat Demo.cfg_retry Demo.env_leads_down Demo.bob_request empty_world).2
    = []
  ∧ length
      (chat_logs
         (chat Demo.cfg_retry Demo.env_leads_down Demo.bob_request
            empty_world).2)
    = 2%nat.
Proof.
  split; [by vm_compute|]. split.
  - intros H. destruct (H empty_world) as (r & w' & Hrun).
    vm_compute in Hrun. discriminate.
  - repeat split; by vm_compute.
Qed.

(** ** More on the string primitives and the extractor *)

Section ExtractorMore.

Lemma lower_char_nl (c : ascii) :
  Ascii.eqb (lower_char c) (ascii_of_nat 10) = Ascii.eqb c (ascii_of_nat 10).
Proof. destruct c as [[] [] [] [] [] [] [] []]; reflexivity. Qed.

(** Lower-casing does not move line breaks. *)
Lemma split_lower (s : string) :
  split (ascii_of_nat 10) (lower s) = lower <$> split (ascii_of_nat 10) s.
Proof.
  induction s as [|c s IH]; [done|].
  cbn [lower split]. rewrite lower_char_nl, IH.
  destruct (Ascii.eqb c (ascii_of_nat 10)); [done|].
  by destruct (split (ascii_of_nat 10) s).
Qed.

Lemma split_app (sep : ascii) (a b : string) :
  split sep (a +:+ String sep b) = split sep a ++ split sep b.
Proof.
  induction a as [|c a IH].
  - rewrite app_nil_l. simpl. by rewrite Ascii.eqb_refl.
  - rewrite app_cons. simpl. rewrite IH.
    destruct (Ascii.eqb c sep); [done|].
    destruct (split sep a) as [|h r] eqn:Hs; [|done].
    by destruct (split_nonempty sep a).
Qed.

Lemma split_nl_free (s : string) :
  nl_free s = true → split (ascii_of_nat 10) s = [s].
Proof.
  induction s as [|c s IH]; [done|]. simpl.
  intros [Hc Hs]%andb_true_iff. apply negb_true_iff in Hc.
  by rewrite Hc, IH.
Qed.

(** A prefix without line break stays in the first piece. *)
Lemma split_nl_free_head (m post : string) :
  nl_free m = true →
  ∃ h r, split (ascii_of_nat 10) (m +:+ post) = (m +:+ h) :: r.
Proof.
  induction m as [|c m IH]; intros Hm.
  - rewrite app_nil_l.
    destruct (split (ascii_of_nat 10) post) as [|h r] eqn:Hs.
    { by destruct (split_nonempty (ascii_of_nat 10) post). }
    by exists h, r.
  - simpl in Hm. apply andb_true_iff in Hm as [Hc Hm].
    apply negb_true_iff in Hc.
    destruct (IH Hm) as (h & r & Hs).
    exists h, r. rewrite app_cons. simpl. by rewrite Hc, Hs.
Qed.

Lemma split_cons (sep c : ascii) (t : string) :
  split sep (String c t) =
  if Ascii.eqb c sep then EmptyString :: split sep t
  else match split sep t with
       | h :: r => String c h :: r
       | [] => [String c EmptyString]
       end.
Proof. reflexivity. Qed.

(** A text without line break that occurs in a string occurs in one of
    its lines. *)
Lemma contains_some_line (m s : string) :
  nl_free m = true →
  contains m s = true →
  ∃ line, line ∈ split (ascii_of_nat 10) s ∧ contains m line = true.
Proof.
  intros Hm (pre & post & ->)%contains_spec.
  induction pre as [|c pre IH].
  - rewrite app_nil_l.
    destruct (split_nl_free_head m post Hm) as (h & r & ->).
    exists (m +:+ h). split; [by left|].
    apply contains_spec. by exists EmptyString, h.
  - destruct IH as (line & Hin & Hline).
    rewrite app_cons, split_cons.
    destruct (Ascii.eqb c (ascii_of_nat 10)).
    { exists line. split; [by right|done]. }
    destruct (split (ascii_of_nat 10) (pre +:+ m +:+ post)) as [|h r].
    { by apply elem_of_nil in Hin. }
    apply elem_of_cons in Hin as [->|Hin].
    + exists (String c h). split; [by left|].
      rewrite contains_cons, Hline. apply orb_true_r.
    + exists line. split; [by right|done].
Qed.

(** The converse of [contains_line] for texts without line break. *)
Lemma marker_in_some_line (m message : string) :
  nl_free m = true →
  contains m (lower message) = true →
  ∃ line, line ∈ split (ascii_of_nat 10) message
          ∧ contains m (lower line) = true.
Proof.
  intros Hm Hc.
  destruct (contains_some_line m (lower message) Hm Hc) as (l & Hin & Hl).
  rewrite split_lower in Hin.
  apply list_elem_of_fmap in Hin as (line & -> & Hin). by exists line.
Qed.

Lemma line_assignment_some (m line : string) :
  m ∈ ["name:"; "email:"; "phone:"] →
  contains m (lower line) = true →
  is_Some (line_assignment line).
Proof.
  intros Hm Hc. unfold line_assignment, line_marker. simpl.
  assert (is_Some (after_first_colon line)) as [text Ht].
  { apply elem_of_cons in Hm as [->|Hm];
      [exact (marker_has_colon "name" line Hc)|].
    apply elem_of_cons in Hm as [->|Hm];
      [exact (marker_has_colon "email" line Hc)|].
    apply elem_of_cons in Hm as [->|Hm];
      [exact (marker_has_colon "phone" line Hc)|].
    by apply elem_of_nil in Hm. }
  rewrite Ht.
  destruct (contains "name:" (lower line)) eqn:Hn; [by eexists|].
  destruct (contains "email:" (lower line)) eqn:He; [by eexists|].
  destruct (contains "phone:" (lower line)) eqn:Hp; [by eexists|].
  repeat (apply elem_of_cons in Hm as [->|Hm]; [congruence|]).
  by apply elem_of_nil in Hm.
Qed.

(** The loop only adds keys: a non-empty dict stays non-empty, and a line
    that makes an assignment leaves a non-empty dict. *)
Lemma extraction_foldl_nonempty (lines : list string) (info : doc) :
  info ≠ ∅ ∨ (∃ line, line ∈ lines ∧ is_Some (line_assignment line)) →
  foldl
    (λ info line,
       match line_assignment line with
       | Some (key, text) => <[key := VStr text]> info
       | None => info
       end)
    info lines ≠ ∅.
Proof.
  revert info. induction lines as [|l rest IH]; intros info.
  - intros [H|(line & Hin & _)]; [done|]. by apply elem_of_nil in Hin.
  - intros H. simpl. apply IH.
    destruct (line_assignment l) as [[key text]|] eqn:Hl.
    { left. apply insert_non_empty. }
    destruct H as [H|(line & Hin & Hsome)]; [by left|].
    apply elem_of_cons in Hin as [->|Hin].
    + rewrite Hl in Hsome. by destruct Hsome.
    + right. by exists line.
Qed.

Lemma has_marker_dec (message : string) :
  has_marker message
  ∨ ∀ m, m ∈ ["name:"; "email:"; "phone:"] → contains m (lower message) = false.
Proof.
  destruct (contains "name:" (lower message)) eqn:Hn.
  { left. exists "name:". split; [set_solver|done]. }
  destruct (contains "email:" (lower message)) eqn:He.
  { left. exists "email:". split; [set_solver|done]. }
  destruct (contains "phone:" (lower message)) eqn:Hp.
  { left. exists "phone:". split; [set_solver|done]. }
  right. intros m Hm.
  repeat (apply elem_of_cons in Hm as [->|Hm]; [done|]).
  by apply elem_of_nil in Hm.
Qed.

Lemma marker_gives_extraction (message : string) :
  has_marker message → extraction_spec message ≠ ∅.
Proof.
  intros (m & Hm & Hc).
  assert (nl_free m = true) as Hfree.
  { repeat (apply elem_of_cons in Hm as [->|Hm]; [done|]).
    by apply elem_of_nil in Hm. }
  destruct (marker_in_some_line m message Hfree Hc) as (line & Hin & Hline).
  apply extraction_foldl_nonempty. right. exists line. split; [done|].
  by apply (line_assignment_some m).
Qed.

(** X1. [extract_contact_info] returns a non-empty dict exactly when the
    message contains, in any letter case, one of the markers [name:],
    [email:], [phone:]. *)
Theorem extraction_nonempty_iff_marker (message : string) :
  (∃ info, extract_contact_info message = inr info ∧ info ≠ ∅)
  ↔ has_marker message.
Proof.
  rewrite extract_contact_info_total. split.
  - intros (info & [= <-] & Hne).
    destruct (has_marker_dec message) as [H|H]; [done|].
    by destruct Hne; apply extraction_spec_no_markers.
  - intros Hmarker. eexists. split; [done|].
    by apply marker_gives_extraction.
Qed.

Lemma extraction_foldl_union (lines : list string) (info : doc) :
  foldl
    (λ info line,
       match line_assignment line with
       | Some (key, text) => <[key := VStr text]> info
       | None => info
       end)
    info lines
  = foldl
      (λ info line,
         match line_assignment line with
         | Some (key, text) => <[key := VStr text]> info
         | None => info
         end)
      ∅ lines ∪ info.
Proof.
  revert info. induction lines as [|l rest IH]; intros info; simpl.
  { by rewrite (left_id_L ∅ (∪)). }
  rewrite IH. symmetry. rewrite IH. symmetry.
  destruct (line_assignment l) as [[key text]|].
  - rewrite <- (assoc_L (∪)). f_equal.
    by rewrite <- insert_union_l, (left_id_L ∅ (∪)).
  - by rewrite <- (assoc_L (∪)), (left_id_L ∅ (∪)).
Qed.

(** X2. Extraction composes over line-joined messages: the result for
    [a + "\n" + b] is the result for [b] completed by the fields of [a] that
    [b] does not set. A later line overrides an earlier one on the same
    field, and other fields accumulate. *)
Theorem extraction_of_joined_messages (a b : string) :
  extract_contact_info (a +:+ nl +:+ b)
  = inr (extraction_spec b ∪ extraction_spec a).
Proof.
  rewrite extract_contact_info_total. f_equal.
  unfold extraction_spec, nl. rewrite app_cons, app_nil_l, split_app, foldl_app.
  apply extraction_foldl_union.
Qed.

Lemma lstrip_idem (s : string) : lstrip (lstrip s) = lstrip s.
Proof.
  induction s as [|c s IH]; [done|]. simpl.
  destruct (is_space c) eqn:Hc; [done|]. simpl. by rewrite Hc.
Qed.

(** A right-stripped string is empty or ends like its last kept
    character: stripping it again changes nothing. *)
Lemma rstrip_idem (s : string) : rstrip (rstrip s) = rstrip s.
Proof.
  induction s as [|c s IH]; [done|]. simpl.
  destruct (rstrip s) as [|d t] eqn:Hs.
  - destruct (is_space c) eqn:Hc; [done|]. simpl. by rewrite Hc.
  - simpl. simpl in IH. by rewrite IH.
Qed.

Lemma rstrip_lstrip (s : string) : rstrip (lstrip s) = lstrip (rstrip s).
Proof.
  induction s as [|c s IH]; [done|]. simpl.
  destruct (is_space c) eqn:Hc.
  - rewrite IH. destruct (rstrip s) as [|d t]; [done|]. simpl. by rewrite Hc.
  - simpl. destruct (rstrip s) as [|d t]; simpl; by rewrite Hc.
Qed.

(** [s.strip().strip() == s.strip()] *)
Lemma strip_idem (s : string) : strip (strip s) = strip s.
Proof.
  unfold strip. by rewrite rstrip_lstrip, rstrip_idem, lstrip_idem.
Qed.

Lemma line_assignment_trimmed (line key text : string) :
  line_assignment line = Some (key, text) → strip text = text.
Proof.
  unfold line_assignment.
  destruct (line_marker line); simpl; [|done].
  destruct (after_first_colon line); simpl; [|done].
  intros [= _ <-]. apply strip_idem.
Qed.

(** X3. Every entry of an extraction result has one of the keys [name],
    [email], [phone], and its value is a string without leading or trailing
    whitespace. *)
Theorem extraction_entries (message : string) (info : doc) (k : string)
    (v : value) :
  extract_contact_info message = inr info →
  info !! k = Some v →
  k ∈ ["name"; "email"; "phone"] ∧ ∃ text, v = VStr text ∧ strip text = text.
Proof.
  rewrite extract_contact_info_total. intros [= <-] Hk.
  split; [apply (extraction_keys message); by rewrite Hk|].
  revert Hk. unfold extraction_spec.
  assert (∀ v, (∅ : doc) !! k = Some v → ∃ text, v = VStr text ∧ strip text = text)
    as Hinit by (intros ?; by rewrite lookup_empty).
  revert Hinit v.
  generalize (split (ascii_of_nat 10) message) (∅ : doc).
  intros lines. induction lines as [|l rest IH]; intros acc Hacc v; simpl.
  { apply Hacc. }
  apply IH. intros v'.
  destruct (line_assignment l) as [[key text]|] eqn:Hl; [|apply Hacc].
  destruct (decide (key = k)) as [->|Hne].
  - rewrite lookup_insert_eq. intros [= <-]. exists text. split; [done|].
    by eapply line_assignment_trimmed.
  - rewrite lookup_insert_ne by done. apply Hacc.
Qed.

(** X4. Priority and value on a single line. For a message without line
    break that contains the marker [name:], the result has the single key
    [name], whatever other markers the line contains, and its value is the
    trimmed text after the first colon of the line, which need not be the
    colon of the marker. *)
Theorem single_line_name_wins (line : string) :
  nl_free line = true →
  contains "name:" (lower line) = true →
  ∃ text,
    after_first_colon line = Some text
    ∧ extract_contact_info line = inr {[ "name" := VStr (strip text) ]}.
Proof.
  intros Hfree Hname.
  destruct (marker_has_colon "name" line Hname) as [text Ht].
  exists text. split; [done|].
  unfold extract_contact_info. rewrite (split_nl_free _ Hfree). simpl.
  rewrite Hname. unfold set_field. by rewrite (field_text_colon _ _ Ht).
Qed.

End ExtractorMore.

Lemma extraction_entries_witness :
  "name" ∈ ["name"; "email"; "phone"]
  ∧ ∃ text, VStr "Jane Doe" = VStr text ∧ strip text = text.
Proof.
  apply (extraction_entries Demo.jane
           (<["name" := VStr "Jane Doe"]> (<["email" := VStr "jane@x.com"]> ∅))
           "name" (VStr "Jane Doe")).
  - vm_compute. reflexivity.
  - vm_compute. reflexivity.
Defined.

Lemma single_line_name_wins_witness :
  ∃ text,
    after_first_colon "email: a@b.c (name: Al)" = Some text
    ∧ extract_contact_info "email: a@b.c (name: Al)"
      = inr {[ "name" := VStr (strip text) ]}.
Proof.
  apply (single_line_name_wins "email: a@b.c (name: Al)"); reflexivity.
Defined.

Lemma extraction_nonempty_iff_marker_witness :
  ∃ info, extract_contact_info "PHONE: 555 0100" = inr info ∧ info ≠ ∅.
Proof.
  apply (extraction_nonempty_iff_marker "PHONE: 555 0100").
  exists "phone:". split; [|reflexivity]. right. right. by left.
Defined.

(** ** More on the history query *)

Section HistoryMore.

Lemma insert_by_timestamp_perm (d : doc) (l : list doc) :
  insert_by_timestamp d l ≡ₚ d :: l.
Proof.
  induction l as [|d' r IH]; simpl; [done|].
  case_match; [done|]. by rewrite IH, Permutation_swap.
Qed.

Lemma sort_by_timestamp_perm (l : list doc) : sort_by_timestamp l ≡ₚ l.
Proof.
  induction l as [|d r IH]; simpl; [done|].
  by rewrite insert_by_timestamp_perm, IH.
Qed.

(** The order of the sort key is total. *)
Lemma key_le_total (a b : option value) :
  key_le a b = false → key_le b a = true.
Proof.
  destruct a as [[x|[]|x]|], b as [[y|[]|y]|]; simpl; try done.
  - intros H. destruct (String.leb_total x y) as [H'|H']; congruence.
  - intros H%Z.leb_gt. apply Z.leb_le. lia.
Qed.

Lemma insert_by_timestamp_sorted (d : doc) (l : list doc) :
  Sorted timestamp_le l → Sorted timestamp_le (insert_by_timestamp d l).
Proof.
  induction 1 as [|d' r Hr IH Hhd]; simpl.
  { by repeat constructor. }
  destruct (key_le (d !! "timestamp") (d' !! "timestamp")) eqn:Hle.
  { by repeat constructor. }
  constructor; [done|].
  destruct r as [|d'' r']; simpl in *.
  - constructor. by apply key_le_total.
  - case_match.
    + constructor. by apply key_le_total.
    + constructor. by inversion Hhd.
Qed.

(** X5. The sort of the history query returns its input rearranged in
    ascending order of the [timestamp] field (documents without the field
    first): nothing is lost, duplicated or invented. *)
Theorem sort_by_timestamp_correct (l : list doc) :
  Sorted timestamp_le (sort_by_timestamp l) ∧ sort_by_timestamp l ≡ₚ l.
Proof.
  split; [|apply sort_by_timestamp_perm].
  induction l as [|d r IH]; simpl; [constructor|].
  by apply insert_by_timestamp_sorted.
Qed.

(** A list already in order is returned as it is: equal keys keep their
    insertion order. *)
Lemma sort_by_timestamp_sorted_id (l : list doc) :
  Sorted timestamp_le l → sort_by_timestamp l = l.
Proof.
  induction 1 as [|d r Hr IH Hhd]; simpl; [done|].
  rewrite IH. destruct Hhd as [|d' r' Hle]; simpl; [done|].
  unfold timestamp_le in Hle. by rewrite Hle.
Qed.

Lemma StronglySorted_filter_docs (P : doc → Prop) `{!∀ d, Decision (P d)}
    (l : list doc) :
  StronglySorted timestamp_le l → StronglySorted timestamp_le (filter P l).
Proof.
  induction 1 as [|d r Hr IH Hall]; [constructor|].
  rewrite filter_cons. case_decide; [|done].
  constructor; [done|].
  apply Forall_forall. intros d' [_ Hin]%list_elem_of_filter.
  by eapply Forall_forall in Hall.
Qed.

(** X6. What the history query returns. Each returned turn is the
    projection of a stored document of the requested session and has no key
    other than [role] and [message]; there is one turn per such document;
    documents of other sessions never show up. *)
Theorem find_history_turns (logs : list doc) (session_id : string) :
  length (find_history logs session_id)
  = length (filter (λ d, d !! "session_id" = Some (VStr session_id)) logs)
  ∧ ∀ msg, msg ∈ find_history logs session_id →
      (∃ d, d ∈ logs ∧ d !! "session_id" = Some (VStr session_id)
            ∧ msg = project d)
      ∧ ∀ k, is_Some (msg !! k) → k = "role" ∨ k = "message".
Proof.
  split; [apply find_history_length|].
  intros msg (d & -> & Hin)%list_elem_of_fmap.
  rewrite sort_by_timestamp_perm in Hin.
  apply list_elem_of_filter in Hin as [Hsid Hin].
  split; [by exists d|].
  intros k Hk. rewrite project_lookup in Hk.
  case_decide; [done|by destruct Hk].
Qed.

Lemma find_history_of_ordered (logs : list doc) (session_id : string) :
  StronglySorted timestamp_le logs →
  find_history logs session_id
  = project <$> filter (λ d, d !! "session_id" = Some (VStr session_id)) logs.
Proof.
  intros H. unfold find_history. f_equal.
  apply sort_by_timestamp_sorted_id, StronglySorted_Sorted.
  by apply StronglySorted_filter_docs.
Qed.


(** Storing a turn of another session does not change a session's
    history. *)
Lemma find_history_other_session logs sid sid' role message t :
  sid ≠ sid' →
  find_history (logs ++ [chat_data sid' role message t]) sid
  = find_history logs sid.
Proof.
  intros Hne. unfold find_history. rewrite filter_app.
  rewrite filter_cons_False, filter_nil, List.app_nil_r; [done|].
  unfold chat_data. simplify_map_eq. congruence.
Qed.

End HistoryMore.


(** ** More on the handler and its helpers *)

Section Evolution.

Context {A B : Type}.

Lemma evolves_bind (R : relation World) `{!PreOrder R}
    (m : M A) (f : A → M B) :
  evolves R m → (∀ a, evolves R (f a)) → evolves R (m ≫= f).
Proof.
  intros Hm Hf w. rewrite bind_unfold. specialize (Hm w).
  destruct (m w) as [[e|a] w1]; simpl in *; [done|].
  etrans; [exact Hm|apply Hf].
Qed.

Lemma evolves_try (R : relation World) `{!PreOrder R}
    (m : M A) (h : exn → M A) :
  evolves R m → (∀ e, evolves R (h e)) → evolves R (try_except m h).
Proof.
  intros Hm Hh w. unfold try_except. specialize (Hm w).
  destruct (m w) as [[e|a] w1]; simpl in *; [|done].
  etrans; [exact Hm|apply Hh].
Qed.

Lemma appends_bind {X} (proj : World → list X) (n1 n2 : nat)
    (m : M A) (f : A → M B) :
  appends proj n1 m → (∀ a, appends proj n2 (f a)) →
  appends proj (n1 + n2) (m ≫= f).
Proof.
  intros Hm Hf w. rewrite bind_unfold.
  destruct (Hm w) as (new1 & H1 & Hn1).
  destruct (m w) as [[e|a] w1]; simpl in *.
  { exists new1. split; [done|lia]. }
  destruct (Hf a w1) as (new2 & H2 & Hn2).
  exists (new1 ++ new2). rewrite H2, H1, length_app.
  split; [by rewrite (assoc_L (++))|lia].
Qed.

Lemma appends_keeps {X} (proj : World → list X) (m : M A) :
  keeps proj m → appends proj 0 m.
Proof.
  intros H w. exists []. by rewrite H, (right_id_L [] (++)).
Qed.

Lemma appends_weaken {X} (proj : World → list X) (n n' : nat) (m : M A) :
  (n ≤ n')%nat → appends proj n m → appends proj n' m.
Proof.
  intros Hn H w. destruct (H w) as (new & ? & ?). exists new. split; [done|lia].
Qed.

End Evolution.

#[local] Instance log_kept_preorder : PreOrder log_kept.
Proof.
  split.
  - by intros w.
  - intros w1 w2 w3 [H1 H1'] [H2 H2']. split; [congruence|lia].
Qed.

(** Decomposes a goal about [log_kept] along the computation. *)
Ltac log_kept_auto :=
  repeat first
    [ apply (evolves_bind log_kept); [|intros ?]
    | apply (evolves_try log_kept); [|intros ?]
    | case_match
    | (intros ?w;
       cbv [print now leads_insert call_model smtp_send log_notify
            log_extract lift mret M_ret];
       repeat case_match; (split; simpl; [reflexivity | lia])) ].

Section HandlerMore.

Variable cfg : Config.
Variable env : Env.

Lemma generate_response_log_kept prompt chat_history :
  evolves log_kept (generate_response cfg env prompt chat_history).
Proof. unfold generate_response. log_kept_auto. Qed.

Lemma store_lead_log_kept contact_info :
  evolves log_kept (store_lead cfg env contact_info).
Proof. unfold store_lead, send_contact_email. log_kept_auto. Qed.

Lemma capture_lead_log_kept session_id message response :
  evolves log_kept (capture_lead cfg env session_id message response).
Proof.
  unfold capture_lead.
  destruct (contact_requested cfg response && mentions_keyword message);
    [|by intros w].
  apply (evolves_bind log_kept); [by intros w; split; [|simpl; lia]|].
  intros _. apply (evolves_bind log_kept); [by intros w|].
  intros contact_info. case_bool_decide; [|by intros w].
  apply (evolves_bind log_kept); [apply store_lead_log_kept|].
  by intros _ w.
Qed.

Lemma store_ordered_log_kept (w w' : World) :
  monotone_clock env → log_kept w w' →
  store_ordered env w → store_ordered env w'.
Proof.
  intros Hmono [Hlogs Hticks] [Hsorted Hbound]. split; rewrite Hlogs; [done|].
  intros d Hd. destruct (Hbound d Hd) as (t & Ht & Hle).
  exists t. split; [done|]. specialize (Hmono _ _ Hticks). lia.
Qed.

Lemma StronglySorted_snoc (l : list doc) (x : doc) :
  StronglySorted timestamp_le l →
  (∀ d, d ∈ l → timestamp_le d x) →
  StronglySorted timestamp_le (l ++ [x]).
Proof.
  induction 1 as [|d r Hr IH Hall]; intros Hx; simpl.
  { by repeat constructor. }
  constructor.
  - apply IH. intros d' Hd'. apply Hx. by right.
  - apply Forall_app. split; [done|]. constructor; [|done]. apply Hx. by left.
Qed.

Lemma store_chat_ordered session_id role message (w : World) :
  monotone_clock env →
  store_ordered env w →
  store_ordered env (store_chat env session_id role message w).2.
Proof.
  intros Hmono [Hsorted Hbound].
  assert (utcnow env (ticks w) ≤ utcnow env (S (ticks w))) as Hstep
    by (apply Hmono; lia).
  destruct (chats_insert_one env (chat_logs w)
              (chat_data session_id role message (utcnow env (ticks w))))
    as [e|] eqn:H.
  - rewrite (store_chat_fail env _ _ _ _ _ H). unfold store_ordered. simpl.
    split; [done|].
    intros d Hd. destruct (Hbound d Hd) as (t & Ht & Hle).
    exists t. split; [done|lia].
  - rewrite (store_chat_ok env _ _ _ _ H). unfold store_ordered. simpl. split.
    + apply StronglySorted_snoc; [done|]. intros d Hd.
      destruct (Hbound d Hd) as (t & Ht & Hle).
      unfold timestamp_le, chat_data. rewrite Ht, lookup_insert_eq. simpl.
      by apply Z.leb_le.
    + intros d [Hd| ->%list_elem_of_singleton]%elem_of_app.
      * destruct (Hbound d Hd) as (t & Ht & Hle). exists t. split; [done|lia].
      * eexists. split; [apply lookup_insert_eq|done].
Qed.


End HandlerMore.


(** ** The prompt window for other values of the cap *)

Section WindowMore.

Variable cfg : Config.
Variable env : Env.

Lemma slice_from_nonneg {A} (n : Z) (l : list A) :
  0 ≤ n → slice_from n l = drop (Z.to_nat n) l.
Proof.
  intros Hn. unfold slice_from. destruct (Z.ltb_spec n 0); [lia|].
  destruct (Z.le_gt_cases n (Z.of_nat (length l))).
  - by rewrite Z.min_l.
  - rewrite Z.min_r, Nat2Z.id, drop_all by lia. symmetry. apply drop_ge. lia.
Qed.

(** X9. With a cap of at least one and turns the loop can render, the
    prompt holds the trailing turns of the history and nothing else: their
    number is the smaller of the cap and the history length, and they are a
    suffix of the history, in its order. *)
Theorem prompt_holds_trailing_window (prompt : string) (chat_history : list doc) :
  0 < MAX_CHAT_HISTORY cfg →
  Forall renderable chat_history →
  full_prompt cfg env prompt chat_history
  = inr (prompt_of env prompt
           (last_n (Z.to_nat (MAX_CHAT_HISTORY cfg)) chat_history))
  ∧ length (last_n (Z.to_nat (MAX_CHAT_HISTORY cfg)) chat_history)
    = Nat.min (Z.to_nat (MAX_CHAT_HISTORY cfg)) (length chat_history)
  ∧ ∃ front,
      chat_history
      = front ++ last_n (Z.to_nat (MAX_CHAT_HISTORY cfg)) chat_history.
Proof.
  intros Hmax H. split; [by apply full_prompt_window|].
  split; [apply last_n_length | apply last_n_suffix].
Qed.

(** X10. A negative cap is not rejected. [chat_history[-N:]] with [N < 0]
    is [chat_history[|N|:]]: the prompt then leaves out the oldest [|N|]
    turns and holds all later ones, however many. *)
Theorem negative_cap_drops_oldest (prompt : string) (chat_history : list doc) :
  MAX_CHAT_HISTORY cfg < 0 →
  Forall renderable chat_history →
  full_prompt cfg env prompt chat_history
  = inr (prompt_of env prompt
           (drop (Z.to_nat (- MAX_CHAT_HISTORY cfg)) chat_history)).
Proof.
  intros Hmax H. rewrite full_prompt_renderable by done.
  by rewrite slice_from_nonneg by lia.
Qed.

End WindowMore.

Lemma prompt_holds_trailing_window_witness :
  full_prompt Demo.cfg Demo.env "Hi" [content_turn "user" "one"]
  = inr (prompt_of Demo.env "Hi"
           (last_n (Z.to_nat (MAX_CHAT_HISTORY Demo.cfg))
              [content_turn "user" "one"])).
Proof.
  apply (prompt_holds_trailing_window Demo.cfg Demo.env "Hi"
           [content_turn "user" "one"]).
  - reflexivity.
  - repeat constructor; by eexists.
Defined.

Lemma negative_cap_drops_oldest_witness :
  full_prompt
    {| MAX_CHAT_HISTORY := -1; CONTACT_PROMPT := CONTACT_PROMPT Demo.cfg;
       EMAIL_USER := EMAIL_USER Demo.cfg;
       RECIPIENT_EMAIL := RECIPIENT_EMAIL Demo.cfg |}
    Demo.env "Hi" [content_turn "user" "one"; content_turn "assistant" "two"]
  = inr (prompt_of Demo.env "Hi"
           (drop (Z.to_nat (- -1))
              [content_turn "user" "one"; content_turn "assistant" "two"])).
Proof.
  apply (negative_cap_drops_oldest
           {| MAX_CHAT_HISTORY := -1; CONTACT_PROMPT := CONTACT_PROMPT Demo.cfg;
              EMAIL_USER := EMAIL_USER Demo.cfg;
              RECIPIENT_EMAIL := RECIPIENT_EMAIL Demo.cfg |}
           Demo.env "Hi"
           [content_turn "user" "one"; content_turn "assistant" "two"]).
  - reflexivity.
  - repeat constructor; by eexists.
Defined.

(** ** The notification *)

Section NotificationMore.

Variable cfg : Config.
Variable env : Env.

(** X11. The mail is determined by the keys [name], [email], [phone] and
    [interest] of the record and by the clock: two records that agree on
    these four keys give the same mail. In particular the session id is
    never part of the mail. *)
Theorem mail_ignores_other_keys (a b : doc) (t : Z) :
  same_mail_fields a b →
  contact_mail cfg env a t = contact_mail cfg env b t.
Proof.
  intros (Hn & He & Hp & Hi). unfold contact_mail, mail_body, get_str.
  by rewrite Hn, He, Hp, Hi.
Qed.

(** X12. [send_contact_email] never raises and leaves both stores alone.
    It either hands exactly one mail to the transport and prints nothing,
    or, when the transport fails, sends nothing and prints one line with
    the error. *)
Theorem send_contact_email_outcome (contact_info : doc) (w : World) :
  ∃ w',
    send_contact_email cfg env contact_info w = (inr (), w')
    ∧ chat_logs w' = chat_logs w
    ∧ leads w' = leads w
    ∧ ((outbox w'
        = outbox w
          ++ [contact_mail cfg env contact_info (utcnow env (ticks w))]
        ∧ stdout w' = stdout w)
       ∨ (outbox w' = outbox w
          ∧ ∃ e, smtp_deliver env
                   (contact_mail cfg env contact_info (utcnow env (ticks w)))
                 = Some e
                 ∧ stdout w'
                   = stdout w ++ ["Error sending email: " +:+ str_exn e])).
Proof.
  destruct (smtp_deliver env
              (contact_mail cfg env contact_info (utcnow env (ticks w))))
    as [e|] eqn:H.
  - rewrite (send_contact_email_fail cfg env _ _ _ H).
    eexists. split; [done|]. simpl. repeat split. right. eauto.
  - rewrite (send_contact_email_ok cfg env _ _ H).
    eexists. split; [done|]. simpl. repeat split. by left.
Qed.

End NotificationMore.

Lemma mail_ignores_other_keys_witness :
  contact_mail Demo.cfg Demo.env (tag_lead "s1" Demo.bob_info) 0
  = contact_mail Demo.cfg Demo.env (tag_lead "another" Demo.bob_info) 0.
Proof.
  apply (mail_ignores_other_keys Demo.cfg Demo.env
           (tag_lead "s1" Demo.bob_info) (tag_lead "another" Demo.bob_info) 0).
  repeat split; vm_compute; reflexivity.
Defined.

(** ** The handler as a whole *)

Section ChatMore.

Variable cfg : Config.
Variable env : Env.

Lemma capture_lead_keeps {X} (proj : World → X) session_id message response :
  (∀ m w, proj (add_extract_call m w) = proj w) →
  (∀ contact_info, keeps proj (store_lead cfg env contact_info)) →
  keeps proj (capture_lead cfg env session_id message response).
Proof.
  intros Hext Hlead. unfold capture_lead.
  destruct (contact_requested cfg response && mentions_keyword message);
    [|apply keeps_ret].
  apply keeps_bind; [intros w; apply Hext|]. intros _.
  apply keeps_bind; [apply keeps_lift|]. intros contact_info.
  case_bool_decide; [|apply keeps_ret].
  apply keeps_bind; [apply Hlead|]. intros _. apply keeps_ret.
Qed.

Lemma store_lead_keeps_model_calls contact_info :
  keeps model_calls (store_lead cfg env contact_info).
Proof. unfold store_lead, send_contact_email. keeps_auto. Qed.

(** The reply of the lead step is the generated reply, with or without the
    acknowledgement. *)
Lemma capture_lead_result session_id message response w r w' :
  capture_lead cfg env session_id message response w = (inr r, w') →
  r = response ∨ r = response +:+ THANKS.
Proof.
  destruct (contact_requested cfg response && mentions_keyword message) eqn:Hg.
  - rewrite capture_lead_attempt by done. case_bool_decide.
    + intros (? & ? & _ & [= <- _])%bind_inv. by right.
    + intros [= <- _]. by left.
  - rewrite capture_lead_skip by done. intros [= <- _]. by left.
Qed.

Lemma store_chat_inv session_id role message w w' :
  store_chat env session_id role message w = (inr (), w') →
  w' = add_chat_log
         (chat_data session_id role message (utcnow env (ticks w))) (tick w).
Proof.
  destruct (chats_insert_one env (chat_logs w)
              (chat_data session_id role message (utcnow env (ticks w))))
    as [e|] eqn:H.
  - by rewrite (store_chat_fail env _ _ _ _ _ H).
  - rewrite (store_chat_ok env _ _ _ _ H). by intros [= <-].
Qed.

(** X13. What a completed request leaves in the chat log: exactly two new
    turns of the request's session, the user's message and then the
    generated reply. The reply returned to the caller is the stored reply,
    or the stored reply followed by the acknowledgement: the acknowledgement
    is added after the reply is stored and never enters the log. A request
    without [session_id] is filed under ["default_session"], one without
    [message] as the empty message. *)
Theorem completed_request_log (data : Request) (w w' : World) (r : string) :
  let session_id := default "default_session" (req_session_id data) in
  let message := default EmptyString (req_message data) in
  chat cfg env data w = (inr r, w') →
  ∃ response t1 t2,
    chat_logs w'
    = chat_logs w
      ++ [chat_data session_id "user" message t1;
          chat_data session_id "assistant" response t2]
    ∧ (r = response ∨ r = response +:+ THANKS).
Proof.
  intros session_id message. unfold chat. fold session_id message.
  intros ([] & w1 & Hstore1 & Hrest)%bind_inv.
  apply bind_inv in Hrest as (chat_history & w1' & [= <- <-] & Hrest).
  unfold reply_with_history in Hrest.
  apply bind_inv in Hrest as (response & w2 & Hgen & Hrest).
  apply bind_inv in Hrest as ([] & w3 & Hstore2 & Hlead).
  pose proof (capture_lead_keeps chat_logs session_id message response
                (λ _ _, eq_refl) (store_lead_keeps_chat_logs cfg env) w3) as Hk.
  rewrite Hlead in Hk. simpl in Hk.
  pose proof (generate_response_keeps cfg env chat_logs message
                (find_history (chat_logs w1) session_id)
                (λ _ _, eq_refl) (λ _ _, eq_refl) w1) as Hg.
  rewrite Hgen in Hg. simpl in Hg.
  apply store_chat_inv in Hstore1 as ->. apply store_chat_inv in Hstore2 as ->.
  exists response, (utcnow env (ticks w)), (utcnow env (ticks w2)).
  split; [|by eapply capture_lead_result].
  rewrite Hk. simpl. rewrite Hg. simpl.
  by rewrite <- (assoc_L (++)).
Qed.

(** X14. With a non-negative cap the handler never calls the model, on any
    path, and every reply it returns is the fallback string, followed by
    the acknowledgement when a lead was captured: the history it loads
    always holds at least the turn it has just stored. *)
Theorem chat_never_reaches_model (data : Request) (w : World) :
  0 ≤ MAX_CHAT_HISTORY cfg →
  model_calls (chat cfg env data w).2 = model_calls w
  ∧ ∀ r w', chat cfg env data w = (inr r, w') →
            r = FALLBACK ∨ r = FALLBACK +:+ THANKS.
Proof.
  intros Hmax.
  set (session_id := default "default_session" (req_session_id data)).
  set (message := default EmptyString (req_message data)).
  destruct (chats_insert_one env (chat_logs w)
              (chat_data session_id "user" message (utcnow env (ticks w))))
    as [e|] eqn:H.
  { unfold chat. fold session_id message.
    rewrite (bind_inl _ _ _ _ _ (store_chat_fail env _ _ _ _ _ H)).
    split; [done|]. intros r w' [=]. }
  destruct (chat_generates_fallback cfg env data w Hmax H) as [key ->].
  fold session_id message. split.
  - assert (keeps model_calls
              (store_chat env session_id "assistant" FALLBACK;;
               capture_lead cfg env session_id message FALLBACK)) as Hk.
    { apply keeps_bind; [by apply store_chat_keeps|]. intros _.
      apply capture_lead_keeps; [done|apply store_lead_keeps_model_calls]. }
    by rewrite Hk.
  - intros r w' ([] & w1 & _ & Hlead)%bind_inv.
    by eapply capture_lead_result.
Qed.

Lemma store_chat_never_raises session_id role message :
  stores_up env → never_raises (store_chat env session_id role message).
Proof. intros [Hchats _] w. rewrite store_chat_ok by apply Hchats. eauto. Qed.

Lemma store_lead_never_raises contact_info :
  stores_up env → never_raises (store_lead cfg env contact_info).
Proof.
  intros [_ Hleads] w. rewrite store_lead_write_ok by apply Hleads.
  destruct (send_contact_email_never_raises cfg env contact_info
              (add_lead (lead_data contact_info (utcnow env (ticks w))) (tick w)))
    as ([] & w' & ->).
  eauto.
Qed.


End ChatMore.

Lemma completed_request_log_witness :
  ∃ response t1 t2,
    chat_logs (chat Demo.cfg Demo.env Demo.first_request empty_world).2
    = chat_logs empty_world
      ++ [chat_data "s1" "user" "Hi" t1; chat_data "s1" "assistant" response t2]
    ∧ (FALLBACK = response ∨ FALLBACK = response +:+ THANKS).
Proof.
  apply (completed_request_log Demo.cfg Demo.env Demo.first_request
           empty_world
           (chat Demo.cfg Demo.env Demo.first_request empty_world).2 FALLBACK).
  vm_compute. reflexivity.
Defined.

Lemma chat_never_reaches_model_witness :
  model_calls (chat Demo.cfg Demo.env Demo.bob_request empty_world).2
  = model_calls empty_world.
Proof.
  apply (chat_never_reaches_model Demo.cfg Demo.env Demo.bob_request
           empty_world).
  simpl. lia.
Defined.


Section ChatBounds.

Variable cfg : Config.
Variable env : Env.

(** The three ways [store_lead] ends. *)
Lemma store_lead_cases (contact_info : doc) (w : World) :
  let after_write :=
    add_lead (lead_data contact_info (utcnow env (ticks w))) (tick w) in
  let mail :=
    contact_mail cfg env contact_info (utcnow env (S (ticks w))) in
  (∃ e, store_lead cfg env contact_info w = (inl e, tick w))
  ∨ store_lead cfg env contact_info w
    = (inr (), add_mail mail (tick (add_notify_call contact_info after_write)))
  ∨ (∃ e, store_lead cfg env contact_info w
          = (inr (),
             add_stdout ("Error sending email: " +:+ str_exn e)
               (tick (add_notify_call contact_info after_write)))).
Proof.
  intros after_write mail.
  destruct (leads_insert_one env (leads w)
              (lead_data contact_info (utcnow env (ticks w)))) as [e|] eqn:Hw.
  { left. exists e. by apply store_lead_write_fail. }
  right. rewrite (store_lead_write_ok cfg env _ _ Hw). fold after_write.
  destruct (smtp_deliver env mail) as [e|] eqn:Hs.
  - right. exists e. by apply send_contact_email_fail.
  - left. by apply send_contact_email_ok.
Qed.

Lemma store_lead_appends (contact_info : doc) :
  appends leads 1 (store_lead cfg env contact_info)
  ∧ appends outbox 1 (store_lead cfg env contact_info)
  ∧ appends notify_calls 1 (store_lead cfg env contact_info).
Proof.
  repeat split; intros w;
    destruct (store_lead_cases contact_info w) as [[e ->]|[->|[e ->]]]; simpl;
    first [ by exists []; rewrite (right_id_L [] (++)); split; [|simpl; lia]
          | by eexists [_]; split; [|simpl; lia] ].
Qed.

Lemma capture_lead_appends {X} (proj : World → list X) (n : nat)
    session_id message response :
  (∀ m w, proj (add_extract_call m w) = proj w) →
  (∀ contact_info, appends proj n (store_lead cfg env contact_info)) →
  appends proj n (capture_lead cfg env session_id message response).
Proof.
  intros Hext Hlead w.
  assert (∃ new, proj w = proj w ++ new ∧ (length new ≤ n)%nat) as Hsame.
  { exists []. rewrite (right_id_L [] (++)). split; [done|simpl; lia]. }
  destruct (contact_requested cfg response && mentions_keyword message) eqn:Hg.
  - rewrite capture_lead_attempt by done.
    case_bool_decide; simpl; [|by rewrite Hext].
    rewrite bind_unfold.
    destruct (Hlead (tag_lead session_id (extraction_spec message))
                (add_extract_call message w)) as (new & Hnew & Hn).
    rewrite Hext in Hnew.
    destruct (store_lead cfg env _ _) as [[e|[]] w1]; simpl in *; eauto.
  - by rewrite capture_lead_skip.
Qed.

Lemma chat_appends {X} (proj : World → list X) (n1 ng nl : nat) data :
  (∀ sid role msg, appends proj n1 (store_chat env sid role msg)) →
  (∀ p h, appends proj ng (generate_response cfg env p h)) →
  (∀ sid m r, appends proj nl (capture_lead cfg env sid m r)) →
  appends proj (n1 + (0 + (ng + (n1 + nl)))) (chat cfg env data).
Proof.
  intros Hstore Hgen Hlead. unfold chat, reply_with_history.
  apply appends_bind; [apply Hstore|]. intros _.
  apply appends_bind; [apply appends_keeps, load_history_keeps|]. intros h.
  apply appends_bind; [apply Hgen|]. intros response.
  apply appends_bind; [apply Hstore|]. intros _. apply Hlead.
Qed.

Lemma store_chat_appends_chat_logs sid role msg :
  appends chat_logs 1 (store_chat env sid role msg).
Proof.
  intros w.
  destruct (chats_insert_one env (chat_logs w)
              (chat_data sid role msg (utcnow env (ticks w)))) as [e|] eqn:H.
  - rewrite (store_chat_fail env _ _ _ _ _ H). exists [].
    simpl. rewrite (right_id_L [] (++)). split; [done|lia].
  - rewrite (store_chat_ok env _ _ _ _ H). eexists [_]. split; [done|simpl; lia].
Qed.

Lemma generate_response_appends_model_calls p h :
  appends model_calls 1 (generate_response cfg env p h).
Proof.
  intros w. destruct (full_prompt cfg env p h) as [e|q] eqn:Hp.
  { rewrite (generate_response_keyerror _ _ _ _ _ _ Hp). exists [].
    simpl. rewrite (right_id_L [] (++)). split; [done|lia]. }
  destruct (generate_content env q) as [e|text] eqn:Hc.
  - rewrite (generate_response_model_error _ _ _ _ _ _ _ Hp Hc).
    eexists [_]. split; [done|simpl; lia].
  - rewrite (generate_response_model_ok _ _ _ _ _ _ _ Hp Hc).
    eexists [_]. split; [done|simpl; lia].
Qed.

(** X16. One request, on any path and also when it raises, only appends to
    the stores: existing chat turns and leads are never changed or removed.
    It adds at most two chat turns, one lead record, one mail, one model
    call and one notification. *)
Theorem chat_is_append_only (data : Request) :
  appends chat_logs 2 (chat cfg env data)
  ∧ appends leads 1 (chat cfg env data)
  ∧ appends outbox 1 (chat cfg env data)
  ∧ appends model_calls 1 (chat cfg env data)
  ∧ appends notify_calls 1 (chat cfg env data).
Proof.
  split; [|split; [|split; [|split]]].
  - apply (chat_appends chat_logs 1 0 0).
    + apply store_chat_appends_chat_logs.
    + intros. by apply appends_keeps, generate_response_keeps.
    + intros. apply appends_keeps, capture_lead_keeps; [done|].
      apply store_lead_keeps_chat_logs.
  - apply (chat_appends leads 0 0 1).
    + intros. by apply appends_keeps, store_chat_keeps.
    + intros. by apply appends_keeps, generate_response_keeps.
    + intros. apply capture_lead_appends; [done|]. apply store_lead_appends.
  - apply (chat_appends outbox 0 0 1).
    + intros. by apply appends_keeps, store_chat_keeps.
    + intros. by apply appends_keeps, generate_response_keeps.
    + intros. apply capture_lead_appends; [done|]. apply store_lead_appends.
  - apply (chat_appends model_calls 0 1 0).
    + intros. by apply appends_keeps, store_chat_keeps.
    + apply generate_response_appends_model_calls.
    + intros. apply appends_keeps, capture_lead_keeps; [done|].
      apply store_lead_keeps_model_calls.
  - apply (chat_appends notify_calls 0 0 1).
    + intros. by apply appends_keeps, store_chat_keeps.
    + intros. by apply appends_keeps, generate_response_keeps.
    + intros. apply capture_lead_appends; [done|]. apply store_lead_appends.
Qed.

Lemma send_contact_email_keeps_leads contact_info :
  keeps leads (send_contact_email cfg env contact_info).
Proof. unfold send_contact_email. keeps_auto. Qed.

Lemma marker_implies_keyword (message : string) :
  has_marker message → mentions_keyword message = true.
Proof.
  intros (m & Hm & Hc). unfold mentions_keyword. simpl.
  assert (∀ key, contains (key +:+ ":") (lower message) = true →
                 contains key (lower message) = true) as Hshort.
  { intros key (pre & post & ->)%contains_spec. apply contains_spec.
    exists pre, (":" +:+ post). by rewrite !app_assoc. }
  apply elem_of_cons in Hm as [->|Hm].
  { by rewrite (Hshort "name" Hc). }
  apply elem_of_cons in Hm as [->|Hm].
  { rewrite (Hshort "email" Hc). by rewrite orb_true_r. }
  apply elem_of_cons in Hm as [->|Hm].
  { rewrite (Hshort "phone" Hc). by rewrite !orb_true_r. }
  by apply elem_of_nil in Hm.
Qed.

(** X17. When the lead store accepts the write, the lead step captures a
    lead exactly when the reply carries the trigger phrase and the message
    contains one of the markers [name:], [email:], [phone:]: it then appends
    one record and returns the reply with the acknowledgement. Otherwise the
    lead store is unchanged and the reply is returned as it is. The keyword
    test of line 149 never decides the outcome, because a message with a
    marker always passes it. *)
Theorem lead_captured_iff_trigger_and_marker
    (session_id message response : string) (w : World) :
  (∀ logs d, leads_insert_one env logs d = None) →
  (contains (lower (CONTACT_PROMPT cfg)) (lower response) = true
   ∧ has_marker message →
   (capture_lead cfg env session_id message response w).1
   = inr (response +:+ THANKS)
   ∧ leads (capture_lead cfg env session_id message response w).2
     = leads w
       ++ [lead_data (tag_lead session_id (extraction_spec message))
             (utcnow env (ticks w))])
  ∧ (¬ (contains (lower (CONTACT_PROMPT cfg)) (lower response) = true
        ∧ has_marker message) →
     (capture_lead cfg env session_id message response w).1 = inr response
     ∧ leads (capture_lead cfg env session_id message response w).2 = leads w).
Proof.
  intros Hup. split.
  - intros [Htrigger Hmarker].
    assert (extraction_spec message ≠ ∅) as Hne.
    { apply marker_gives_extraction in Hmarker. exact Hmarker. }
    rewrite capture_lead_attempt, bool_decide_true by
      (done || (unfold contact_requested;
                by rewrite Htrigger, marker_implies_keyword)).
    rewrite bind_unfold, store_lead_write_ok by apply Hup.
    destruct (send_contact_email_never_raises cfg env
                (tag_lead session_id (extraction_spec message))
                (add_lead
                   (lead_data (tag_lead session_id (extraction_spec message))
                      (utcnow env (ticks (add_extract_call message w))))
                   (tick (add_extract_call message w))))
      as ([] & w' & Hsend).
    pose proof (send_contact_email_keeps_leads
                  (tag_lead session_id (extraction_spec message))
                  (add_lead
                     (lead_data (tag_lead session_id (extraction_spec message))
                        (utcnow env (ticks (add_extract_call message w))))
                     (tick (add_extract_call message w)))) as Hleads.
    rewrite Hsend in *. simpl in *. split; [done|]. by rewrite Hleads.
  - intros Hnot.
    destruct (contains (lower (CONTACT_PROMPT cfg)) (lower response)) eqn:Ht.
    + assert (extraction_spec message = ∅) as Hempty.
      { destruct (has_marker_dec message) as [H|H]; [by destruct Hnot|].
        by apply extraction_spec_no_markers. }
      rewrite capture_lead_no_markers by done. simpl. split; [done|].
      by case_match.
    + rewrite capture_lead_skip; [done|]. unfold contact_requested.
      by rewrite Ht.
Qed.

End ChatBounds.

Lemma lead_captured_iff_trigger_and_marker_witness :
  (capture_lead Demo.cfg Demo.env "s1" Demo.bob Demo.reply empty_world).1
  = inr (Demo.reply +:+ THANKS)
  ∧ leads (capture_lead Demo.cfg Demo.env "s1" Demo.bob Demo.reply empty_world).2
    = leads empty_world
      ++ [lead_data (tag_lead "s1" (extraction_spec Demo.bob))
            (utcnow Demo.env (ticks empty_world))].
Proof.
  apply (lead_captured_iff_trigger_and_marker Demo.cfg Demo.env "s1" Demo.bob
           Demo.reply empty_world).
  - intros logs d. reflexivity.
  - split; [reflexivity|]. exists "name:". split; [by left | reflexivity].
Defined.
